(** * Sparkify ETL (etl.py): a shallow embedding and its properties

    The program reads song-metadata and user-activity JSON files and issues
    insert statements through a database cursor.  The embedding keeps the
    shape of the Python source:

    - a dataframe is the list of its rows, a row is a record of cells;
    - the cursor and the connection are modelled by the chronological trace
      of the calls made on them ([Execute], [Fetchone], [Commit], [Close]);
    - a procedure is a computation in a state-and-exception monad over that
      trace: an exception keeps the calls already made and stops the
      procedure, as in Python;
    - what the database answers and what the files contain are inputs of the
      model (section variables), since both live outside the program.

    Terminal output ([print]) is not part of the model. *)

From Stdlib Require Import ZArith List String Ascii Bool Lia.
From Stdlib Require Import Floats.PrimFloat Floats.SpecFloat Floats.FloatOps.
Import ListNotations.

Local Open Scope Z_scope.
Local Open Scope list_scope.
Set Warnings "-register-all,-inexact-float".

(** ** Cells, rows and files *)

(** A [datetime.time] value: what [t.dt.time] yields. *)
Record time_of_day : Set := mk_time
  { t_hour : Z; t_minute : Z; t_second : Z; t_microsecond : Z }.

(** A value held in a dataframe cell or passed as a statement parameter. *)
Inductive cell : Set :=
| CNone                    (* Python None *)
| CInt (z : Z)             (* integer *)
| CFloat (f : float)       (* float64, NaN included *)
| CStr (s : string)        (* text *)
| CTime (t : time_of_day). (* datetime.time *)

(** One line of a song-metadata file (the columns the program reads). *)
Record song_rec : Set := mk_song
  { song_id : cell; title : cell; artist_id : cell; year : cell;
    duration : cell; artist_name : cell; artist_location : cell;
    artist_latitude : cell; artist_longitude : cell }.

(** One line of a user-activity log file (the columns the program reads).
    The [ts] column is an integer column of milliseconds since the epoch. *)
Record log_rec : Set := mk_log
  { page : cell; ts : Z; userId : cell; firstName : cell; lastName : cell;
    gender : cell; level : cell; song : cell; artist : cell; length : cell;
    sessionId : cell; location : cell; userAgent : cell }.

(** A path is the list of its components; [os.path.join root name] adds one
    component and [os.path.abspath] prefixes the working directory. *)
Definition path : Set := list string.

(** ** Timestamps: [pd.to_datetime(ts, unit='ms')] and the [.dt] accessors

    The timestamp column counts milliseconds since 1970-01-01T00:00:00 (UTC);
    the accessors read the fields of that instant in the proleptic Gregorian
    calendar. *)

Definition ms_per_day : Z := 86400000.

(** Whole days since the epoch, and milliseconds into the day. *)
Definition epoch_day (ts : Z) : Z := ts / ms_per_day.
Definition ms_of_day (ts : Z) : Z := ts mod ms_per_day.

(** [t.dt.time]: the time of day, to the microsecond. *)
Definition time_of_ms (ms : Z) : time_of_day :=
  {| t_hour := ms / 3600000;
     t_minute := (ms / 60000) mod 60;
     t_second := (ms / 1000) mod 60;
     t_microsecond := (ms mod 1000) * 1000 |}.

Definition dt_time (ts : Z) : time_of_day := time_of_ms (ms_of_day ts).

(** [t.dt.hour] *)
Definition dt_hour (ts : Z) : Z := ms_of_day ts / 3600000.

(** Year, month and day of the month of a day number (days since the epoch),
    by eras of 400 years starting on 1 March. *)
Definition civil_from_days (days : Z) : Z * Z * Z :=
  let z := days + 719468 in
  let era := z / 146097 in
  let doe := z - era * 146097 in
  let yoe := (doe - doe / 1460 + doe / 36524 - doe / 146096) / 365 in
  let doy := doe - (365 * yoe + yoe / 4 - yoe / 100) in
  let mp := (5 * doy + 2) / 153 in
  let d := doy - (153 * mp + 2) / 5 + 1 in
  let m := if mp <? 10 then mp + 3 else mp - 9 in
  let y := yoe + era * 400 + (if m <=? 2 then 1 else 0) in
  (y, m, d).

(** [t.dt.year], [t.dt.month], [t.dt.day] *)
Definition dt_year (ts : Z) : Z :=
  let '(y, _, _) := civil_from_days (epoch_day ts) in y.
Definition dt_month (ts : Z) : Z :=
  let '(_, m, _) := civil_from_days (epoch_day ts) in m.
Definition dt_day (ts : Z) : Z :=
  let '(_, _, d) := civil_from_days (epoch_day ts) in d.

(** [t.dt.weekday]: Monday is 0; 1970-01-01 was a Thursday. *)
Definition dt_weekday (ts : Z) : Z := (epoch_day ts + 3) mod 7.

Definition is_leapyear (y : Z) : bool :=
  ((y mod 4 =? 0) && negb (y mod 100 =? 0)) || (y mod 400 =? 0).

(** Days of the year before the first of month [m]. *)
Definition month_offset (leap : bool) (m : Z) : Z :=
  nth (Z.to_nat (m - 1))
      (if leap
       then [0; 31; 60; 91; 121; 152; 182; 213; 244; 274; 305; 335; 366]
       else [0; 31; 59; 90; 120; 151; 181; 212; 243; 273; 304; 334; 365])
      0.

Definition day_of_year (y m d : Z) : Z := month_offset (is_leapyear y) m + d.

(** The ISO 8601 week number of a date whose weekday is [dow]. *)
Definition week_of_year (y m d dow : Z) : Z :=
  let doy := day_of_year y m d in
  let woy := (doy - 1) - dow + 3 in
  if woy <? 0 then
    if (-2 <? woy) || ((woy =? -2) && is_leapyear (y - 1)) then 53 else 52
  else
    let woy := woy / 7 + 1 in
    if (woy =? 53) && (31 - d + dow <? 3) then 1 else woy.

(** [t.dt.weekofyear] *)
Definition dt_weekofyear (ts : Z) : Z :=
  let '(y, m, d) := civil_from_days (epoch_day ts) in
  week_of_year y m d (dt_weekday ts).

(** [pd.to_datetime] raises outside the range of 64-bit nanoseconds. *)
Definition max_ms : Z := 9223372036854.

Definition in_datetime_bounds (ts : Z) : bool :=
  (- max_ms <=? ts) && (ts <=? max_ms).

(** ** [datetime.datetime.fromtimestamp(row.ts / 1e3).strftime('%H:%M:%S.%f')]

    The songplay start time goes through double-precision arithmetic and the
    local time zone of the machine. *)

(** [float(n)] for an integer [n]: the nearest double, ties to even. *)
Definition float_of_Z (n : Z) : float :=
  SF2Prim (binary_normalize prec emax n 0 false).

(** The integer part of a finite double, rounded toward zero ([modf]). *)
Definition float_trunc (x : float) : Z :=
  match Prim2SF x with
  | S754_finite s m e =>
      let a := if 0 <=? e then Z.shiftl (Z.pos m) e
               else Z.shiftr (Z.pos m) (- e) in
      if s then - a else a
  | _ => 0
  end.

(** The nearest integer of a finite double, ties to even. *)
Definition float_round_half_even (x : float) : Z :=
  match Prim2SF x with
  | S754_finite s m e =>
      let a :=
        if 0 <=? e then Z.shiftl (Z.pos m) e
        else
          let q := Z.shiftr (Z.pos m) (- e) in
          let r := Z.pos m - Z.shiftl q (- e) in
          let half := Z.shiftl 1 (- e - 1) in
          if r <? half then q
          else if half <? r then q + 1
          else if Z.even q then q else q + 1 in
      if s then - a else a
  | _ => 0
  end.

(** The seconds and microseconds [fromtimestamp] reads from a double [x]
    (finite here, being an integer divided by 1000). *)
Definition timestamp_parts (x : float) : Z * Z :=
  let intpart := float_trunc x in
  let floatpart := PrimFloat.sub x (float_of_Z intpart) in
  let us := float_round_half_even (PrimFloat.mul floatpart (float_of_Z 1000000)) in
  if 1000000 <=? us then (intpart + 1, us - 1000000)
  else if us <? 0 then (intpart - 1, us + 1000000)
  else (intpart, us).

(** The local time of day of [sec] seconds and [us] microseconds since the
    epoch, where [utcoffset] gives the offset of local time from UTC, in
    seconds, at an instant. *)
Definition local_time_of_day (utcoffset : Z -> Z) (sec us : Z) : time_of_day :=
  let s := (sec + utcoffset sec) mod 86400 in
  {| t_hour := s / 3600;
     t_minute := (s / 60) mod 60;
     t_second := s mod 60;
     t_microsecond := us |}.

Definition digit (d : Z) : ascii := ascii_of_nat (48 + Z.to_nat d).

(** [n] written in decimal on [width] digits, padded with zeros. *)
Fixpoint zero_padded (width : nat) (n : Z) : string :=
  match width with
  | O => EmptyString
  | S w => (zero_padded w (n / 10) ++ String (digit (n mod 10)) EmptyString)%string
  end.

(** [strftime('%H:%M:%S.%f')] *)
Definition strftime_HMSf (t : time_of_day) : string :=
  (zero_padded 2 (t_hour t) ++ ":" ++ zero_padded 2 (t_minute t) ++ ":" ++
   zero_padded 2 (t_second t) ++ "." ++ zero_padded 6 (t_microsecond t))%string.

Definition start_time_of (utcoffset : Z -> Z) (ts : Z) : string :=
  let '(sec, us) :=
    timestamp_parts (PrimFloat.div (float_of_Z ts) (float_of_Z 1000)) in
  strftime_HMSf (local_time_of_day utcoffset sec us).

(** ** The directory tree: [os.walk] and [glob.glob] *)

(** A directory lists its entries in the order the file system gives them. *)
Inductive entry : Set :=
| File (name : string)
| Dir (name : string) (entries : list entry).

Definition entry_name (e : entry) : string :=
  match e with File n | Dir n _ => n end.

Definition is_dir (e : entry) : bool :=
  match e with Dir _ _ => true | File _ => false end.

(** The listing of the directory at a relative path, empty when there is no
    such directory. *)
Fixpoint listing_at (entries : list entry) (p : path) : list entry :=
  match p with
  | [] => entries
  | n :: rest =>
      (fix find (l : list entry) : list entry :=
         match l with
         | [] => []
         | Dir n' sub :: l' =>
             if String.eqb n n' then listing_at sub rest else find l'
         | File _ :: l' => find l'
         end) entries
  end.

(** [os.path.isdir] of a relative path. *)
Fixpoint isdir (entries : list entry) (p : path) : bool :=
  match p with
  | [] => true
  | n :: rest =>
      (fix find (l : list entry) : bool :=
         match l with
         | [] => false
         | Dir n' sub :: l' =>
             if String.eqb n n' then isdir sub rest else find l'
         | File _ :: l' => find l'
         end) entries
  end.

(** *** [fnmatch]: shell patterns

    [fnmatch.translate] reads a pattern from left to right: [*] stands for
    any text, [?] for any character, [[...]] for a set of characters, and
    every other character for itself.  The sets are read as CPython 3.11
    reads them: a range whose end comes before its start is dropped, and
    names are compared with their case, as on POSIX. *)
Inductive pattern_item : Set :=
| Star
| Any_char
| Literal (c : ascii)
| Char_set (negated : bool) (singles : list ascii)
           (ranges : list (ascii * ascii)).

Definition ascii_leb (a b : ascii) : bool :=
  (nat_of_ascii a <=? nat_of_ascii b)%nat.

(** The text up to the first closing bracket, and the text after it. *)
Fixpoint until_bracket (s : list ascii) : option (list ascii * list ascii) :=
  match s with
  | [] => None
  | c :: rest =>
      if Ascii.eqb c "]" then Some ([], rest)
      else match until_bracket rest with
           | Some (stuff, rest') => Some (c :: stuff, rest')
           | None => None
           end
  end.

(** The text of a set, read after its opening bracket: a leading [!] and a
    closing bracket right after it belong to the set.  No set is read when
    no bracket closes it. *)
Definition set_text (s : list ascii) : option (list ascii * list ascii) :=
  let '(bang, s1) :=
    match s with
    | "!"%char :: r => (["!"%char], r)
    | _ => ([], s)
    end in
  let '(bracket, s2) :=
    match s1 with
    | "]"%char :: r => (["]"%char], r)
    | _ => ([], s1)
    end in
  match until_bracket s2 with
  | Some (stuff, rest) => Some (bang ++ bracket ++ stuff, rest)
  | None => None
  end.

(** The chunks of a set's text, cut at the hyphens that make a range: a
    hyphen makes none as the first character ([skip] characters are taken as
    they come), right after the end of a range, or as the last character. *)
Fixpoint set_chunks (skip : nat) (chunk s : list ascii)
  : list (list ascii) :=
  match s with
  | [] => [chunk]
  | c :: rest =>
      match skip with
      | S k => set_chunks k (chunk ++ [c]) rest
      | O =>
          if Ascii.eqb c "-" then
            match rest with
            | [] => [chunk ++ [c]]
            | _ :: _ => chunk :: set_chunks 2 [] rest
            end
          else set_chunks 0 (chunk ++ [c]) rest
      end
  end.

(** A range whose end comes before its start is empty: the two chunks are
    joined without its bounds, from the last range to the first. *)
Definition drop_empty_ranges (chunks : list (list ascii))
  : list (list ascii) :=
  fold_right
    (fun chunk done =>
       match done with
       | (hi :: next) :: others =>
           if ascii_leb (last chunk hi) hi then chunk :: done
           else (removelast chunk ++ next) :: others
       | _ => chunk :: done
       end) [] chunks.

(** The ranges between one chunk and the next. *)
Fixpoint chunk_ranges (chunks : list (list ascii)) : list (ascii * ascii) :=
  match chunks with
  | chunk :: ((hi :: _) :: _) as rest =>
      (last chunk hi, hi) :: chunk_ranges rest
  | _ => []
  end.

Definition char_set (stuff : list ascii) : pattern_item :=
  let skip := match stuff with "!"%char :: _ => 2%nat | _ => 1%nat end in
  let chunks := drop_empty_ranges (set_chunks skip [] stuff) in
  match chunks with
  | ("!"%char :: chunk) :: rest =>
      Char_set true (List.concat (chunk :: rest)) (chunk_ranges chunks)
  | _ => Char_set false (List.concat chunks) (chunk_ranges chunks)
  end.

Fixpoint translate (fuel : nat) (pat : list ascii) : list pattern_item :=
  match fuel, pat with
  | S fuel, c :: rest =>
      if Ascii.eqb c "*" then Star :: translate fuel rest
      else if Ascii.eqb c "?" then Any_char :: translate fuel rest
      else if Ascii.eqb c "[" then
        match set_text rest with
        | Some (stuff, rest') => char_set stuff :: translate fuel rest'
        | None => Literal c :: translate fuel rest
        end
      else Literal c :: translate fuel rest
  | _, _ => []
  end.

Definition in_char_set (c : ascii) (singles : list ascii)
  (ranges : list (ascii * ascii)) : bool :=
  existsb (Ascii.eqb c) singles
  || existsb (fun r => ascii_leb (fst r) c && ascii_leb c (snd r)) ranges.

(** Whether the whole of [name] matches the items. *)
Fixpoint match_items (items : list pattern_item) (name : list ascii) : bool :=
  match items with
  | [] => match name with [] => true | _ :: _ => false end
  | Star :: rest =>
      (fix from (s : list ascii) : bool :=
         match_items rest s
         || match s with [] => false | _ :: s' => from s' end) name
  | Any_char :: rest =>
      match name with
      | _ :: s => match_items rest s
      | [] => false
      end
  | Literal c :: rest =>
      match name with
      | c' :: s => Ascii.eqb c c' && match_items rest s
      | [] => false
      end
  | Char_set negated singles ranges :: rest =>
      match name with
      | c :: s =>
          xorb negated (in_char_set c singles ranges) && match_items rest s
      | [] => false
      end
  end.

(** [fnmatch.fnmatchcase(name, pattern)] *)
Definition fnmatch (pattern name : string) : bool :=
  let pat := list_ascii_of_string pattern in
  match_items (translate (List.length pat) pat) (list_ascii_of_string name).

(** *** [glob.glob] *)

Definition is_hidden (name : string) : bool :=
  match name with
  | String "." _ => true
  | _ => false
  end.

(** [glob.has_magic]: whether a name, or a component of a path, holds one of
    the characters [*], [?] and [[]. *)
Fixpoint has_magic_name (s : string) : bool :=
  match s with
  | EmptyString => false
  | String c rest =>
      Ascii.eqb c "*" || Ascii.eqb c "?" || Ascii.eqb c "["
      || has_magic_name rest
  end.

Definition has_magic (p : path) : bool := existsb has_magic_name p.

(** [_glob1]: the names a directory lists that match a pattern; a pattern
    that does not start with a dot matches no name that does. *)
Definition glob1 (entries : list entry) (pattern : string) (dironly : bool)
  : list string :=
  let names :=
    map entry_name (filter (fun e => negb dironly || is_dir e) entries) in
  let names :=
    if is_hidden pattern then names
    else filter (fun x => negb (is_hidden x)) names in
  filter (fnmatch pattern) names.

(** [_glob0]: a name without metacharacter is looked up as it is. *)
Definition glob0 (entries : list entry) (basename : string) : list string :=
  if existsb (fun e => String.eqb (entry_name e) basename) entries
  then [basename] else [].

(** [_iglob(dirname, dironly=True)] for a directory part that holds a
    metacharacter, given with its last component first: the part before the
    last component is expanded in the same way if it holds a metacharacter
    and taken literally if not, then the last component is matched in each
    directory found. *)
Fixpoint iglob_dirs (fs : list entry) (pattern : list string) : list path :=
  match pattern with
  | [] => [[]]
  | basename :: dirname =>
      let dirs :=
        if has_magic dirname then iglob_dirs fs dirname else [rev dirname] in
      flat_map
        (fun d =>
           map (fun name => d ++ [name])
               (if has_magic_name basename
                then glob1 (listing_at fs d) basename true
                else glob0 (listing_at fs d) basename))
        dirs
  end.

(** [glob.glob(os.path.join(root, '*.json'))], with the paths relative to the
    working directory, which lists [fs]: the directory part is a pattern
    too. *)
Definition glob_json (fs : list entry) (root : path) : list path :=
  let dirs := if has_magic root then iglob_dirs fs (rev root) else [root] in
  flat_map
    (fun d => map (fun name => d ++ [name])
                  (glob1 (listing_at fs d) "*.json" false))
    dirs.

(** The matches collected along [os.walk]: those of the directory itself
    first, then those of each of its sub-directories in turn. *)
Fixpoint walk_sub (fs : list entry) (root : path) (e : entry) : list path :=
  match e with
  | File _ => []
  | Dir n sub =>
      glob_json fs (root ++ [n]) ++ flat_map (walk_sub fs (root ++ [n])) sub
  end.

Definition walk_glob (fs : list entry) (root : path) (entries : list entry)
  : list path :=
  glob_json fs root ++ flat_map (walk_sub fs root) entries.

(** ** Statements, events, exceptions *)

(** The statements of [sql_queries], which is imported by [etl.py] and is not
    among the sources: each statement is represented by its name. *)
Inductive query : Set :=
| song_table_insert
| artist_table_insert
| time_table_insert
| user_table_insert
| songplay_table_insert
| song_select.

Definition query_eqb (a b : query) : bool :=
  match a, b with
  | song_table_insert, song_table_insert
  | artist_table_insert, artist_table_insert
  | time_table_insert, time_table_insert
  | user_table_insert, user_table_insert
  | songplay_table_insert, songplay_table_insert
  | song_select, song_select => true
  | _, _ => false
  end.

Definition is_insert (q : query) : bool :=
  match q with song_select => false | _ => true end.

(** A call on the cursor or on the connection. *)
Inductive event : Set :=
| Execute (q : query) (params : list cell)     (* cur.execute(q, params) *)
| Fetchone (results : option (cell * cell))    (* cur.fetchone() and its value *)
| Commit                                       (* conn.commit() *)
| Close.                                       (* conn.close() *)

Definition trace : Set := list event.

Inductive exn : Set :=
| KeyError              (* a column is missing from the frame *)
| OutOfBoundsDatetime   (* pd.to_datetime out of the nanosecond range *)
| ReadError             (* pd.read_json could not read the path *)
| DatabaseError.        (* raised by cur.execute *)

Inductive result (A : Type) : Type :=
| Ok (a : A)
| Raise (e : exn).
Arguments Ok {A} a.
Arguments Raise {A} e.

(** ** The monad of procedures *)

Definition M (A : Type) : Type := trace -> trace * result A.

Definition ret {A} (a : A) : M A := fun tr => (tr, Ok a).

Definition raise {A} (e : exn) : M A := fun tr => (tr, Raise e).

Definition lift {A} (r : result A) : M A := fun tr => (tr, r).

Definition bind {A B} (m : M A) (k : A -> M B) : M B :=
  fun tr =>
    match m tr with
    | (tr', Ok a) => k a tr'
    | (tr', Raise e) => (tr', Raise e)
    end.

Declare Scope etl_scope.
Delimit Scope etl_scope with etl.
Notation "x <- m ;; k" := (bind m (fun x => k))
  (at level 61, m at next level, right associativity) : etl_scope.
Notation "m ;; k" := (bind m (fun _ => k))
  (at level 61, right associativity) : etl_scope.
Local Open Scope etl_scope.

(** [for x in l: body(x)] *)
Fixpoint for_each {A} (body : A -> M unit) (l : list A) : M unit :=
  match l with
  | [] => ret tt
  | x :: rest => body x ;; for_each body rest
  end.

(** Counting the statements of one kind in a trace. *)
Definition is_execute_of (q : query) (e : event) : bool :=
  match e with
  | Execute q' _ => query_eqb q q'
  | _ => false
  end.

Definition executions (q : query) (tr : trace) : list event :=
  filter (is_execute_of q) tr.

Section Cursor.

(** What the database answers: the row [cur.fetchone()] returns after the
    calls made so far, and the exception, if any, that [cur.execute] raises
    for a statement issued after the calls made so far. *)
Variable fetchone_result : trace -> option (cell * cell).
Variable execute_error : trace -> query -> list cell -> option exn.

Definition execute (q : query) (params : list cell) : M unit :=
  fun tr =>
    match execute_error tr q params with
    | Some e => (tr, Raise e)
    | None => (tr ++ [Execute q params], Ok tt)
    end.

Definition fetchone : M (option (cell * cell)) :=
  fun tr =>
    let results := fetchone_result tr in
    (tr ++ [Fetchone results], Ok results).

Definition commit : M unit := fun tr => (tr ++ [Commit], Ok tt).

Definition close : M unit := fun tr => (tr ++ [Close], Ok tt).

(** *** process_song_file *)

(** [pd.read_json(filepath, lines=True)] on a song file. *)
Variable read_song_json : path -> result (list song_rec).

Definition song_data (row : song_rec) : list cell :=
  [song_id row; title row; artist_id row; year row; duration row].

Definition artist_data (row : song_rec) : list cell :=
  [artist_id row; artist_name row; artist_location row;
   artist_latitude row; artist_longitude row].

Definition process_song_file (filepath : path) : M unit :=
  df <- lift (read_song_json filepath) ;;
  match df with
  | [] => raise KeyError   (* a frame without rows has no columns *)
  | first :: _ =>          (* .values[0] *)
      execute song_table_insert (song_data first) ;;
      execute artist_table_insert (artist_data first)
  end.

(** *** process_log_file *)

(** [pd.read_json(filepath, lines=True)] on a log file. *)
Variable read_log_json : path -> result (list log_rec).

(** The offset of the machine's local time from UTC, in seconds, at an
    instant given in seconds since the epoch. *)
Variable utcoffset : Z -> Z.

(** [df['page'] == 'NextSong'] *)
Definition is_NextSong (row : log_rec) : bool :=
  match page row with
  | CStr s => String.eqb s "NextSong"
  | _ => false
  end.

(** [pd.to_datetime(df['ts'], unit='ms')]: the instants, still counted in
    milliseconds, or an exception when one is out of range.  The column is
    taken to hold int64 values other than the minimum, which pandas reads as
    a missing time without raising ([is_int64_time] below). *)
Definition to_datetime (column : list Z) : result (list Z) :=
  if forallb in_datetime_bounds column then Ok column
  else Raise OutOfBoundsDatetime.

(** A row of [time_df], in the order of [column_labels]. *)
Definition time_data (t : Z) : list cell :=
  [CTime (dt_time t); CInt (dt_hour t); CInt (dt_day t);
   CInt (dt_weekofyear t); CInt (dt_month t); CInt (dt_year t);
   CInt (dt_weekday t)].

(** A row of [user_df]. *)
Definition user_data (row : log_rec) : list cell :=
  [userId row; firstName row; lastName row; gender row; level row].

Definition start_time (row : log_rec) : cell :=
  CStr (start_time_of utcoffset (ts row)).

Definition songplay_data (row : log_rec) (results : option (cell * cell))
  : list cell :=
  let '(songid, artistid) :=
    match results with
    | Some (songid, artistid) => (songid, artistid)
    | None => (CNone, CNone)
    end in
  [start_time row; userId row; level row; songid; artistid;
   sessionId row; location row; userAgent row].

(** The body of the songplay loop. *)
Definition insert_songplay (row : log_rec) : M unit :=
  execute song_select [song row; artist row; length row] ;;
  results <- fetchone ;;
  execute songplay_table_insert (songplay_data row results).

Definition process_log_file (filepath : path) : M unit :=
  df <- lift (read_log_json filepath) ;;
  match df with
  | [] => raise KeyError   (* a frame without rows has no 'page' column *)
  | _ :: _ =>
      let df := filter is_NextSong df in
      t <- lift (to_datetime (map ts df)) ;;
      let time_df := map time_data t in
      for_each (fun row => execute time_table_insert row) time_df ;;
      let user_df := map user_data df in
      for_each (fun row => execute user_table_insert row) user_df ;;
      for_each insert_songplay df
  end.

(** *** process_data and main *)

(** The working directory and the entries it lists. *)
Variable cwd : path.
Variable fs : list entry.

Definition abspath (p : path) : path := cwd ++ p.

(** [os.walk] yields nothing when [filepath] is not a directory. *)
Definition all_files (filepath : path) : list path :=
  if isdir fs filepath
  then map abspath (walk_glob fs filepath (listing_at fs filepath))
  else [].

(** The body of the loop over the files. *)
Definition process_one (func : path -> M unit) (datafile : path) : M unit :=
  func datafile ;;
  commit.

Definition process_data (filepath : path) (func : path -> M unit) : M unit :=
  for_each (process_one func) (all_files filepath).

Definition main : M unit :=
  process_data ["data"; "song_data"]%string process_song_file ;;
  process_data ["data"; "log_data"]%string process_log_file ;;
  close.

End Cursor.

(** ** Reading a trace *)

(** The statements issued since the last commit. *)
Fixpoint pending (acc tr : trace) : trace :=
  match tr with
  | [] => acc
  | Commit :: rest => pending [] rest
  | e :: rest => pending (acc ++ [e]) rest
  end.

Definition uncommitted (tr : trace) : trace := pending [] tr.

Definition is_commit (e : event) : bool :=
  match e with Commit => true | _ => false end.

Definition is_insert_event (e : event) : bool :=
  match e with Execute q _ => is_insert q | _ => false end.

(** The values the calls to [fetchone] returned, in order. *)
Fixpoint fetched (tr : trace) : list (option (cell * cell)) :=
  match tr with
  | [] => []
  | Fetchone r :: rest => r :: fetched rest
  | _ :: rest => fetched rest
  end.

(** The first parameter of each statement of kind [q], in order. *)
Definition first_params (q : query) (tr : trace) : list cell :=
  flat_map (fun e => match e with
                     | Execute _ (c :: _) => [c]
                     | _ => []
                     end) (executions q tr).

(** A computation that only adds calls to the trace, none of them a commit,
    whether it returns or raises. *)
Definition no_commit (calls : trace) : bool :=
  forallb (fun e => negb (is_commit e)) calls.

Definition adds_no_commit {A} (m : M A) : Prop :=
  forall tr, exists calls, fst (m tr) = tr ++ calls /\ no_commit calls = true.

Definition commit_free (func : path -> M unit) : Prop :=
  forall datafile, adds_no_commit (func datafile).

(** ** Reading a directory tree *)

(** Whether [s] ends in [suffix]. *)
Definition ends_with (suffix s : string) : bool :=
  let n := String.length s in
  let k := String.length suffix in
  (k <=? n)%nat && String.eqb (substring (n - k) k s) suffix.

(** What ['*.json'] matches (lemma [fnmatch_json]): the names that end in
    .json and do not start with a dot. *)
Definition glob_match (name : string) : bool :=
  negb (is_hidden name) && ends_with ".json" name.

(** The matches when every directory name is read as it is written: those
    among the entries of a directory, those below an entry, and those under a
    directory at any depth. *)
Definition json_in (root : path) (entries : list entry) : list path :=
  map (fun e => root ++ [entry_name e])
      (filter (fun e => glob_match (entry_name e)) entries).

Fixpoint json_below (root : path) (e : entry) : list path :=
  match e with
  | File _ => []
  | Dir n sub =>
      json_in (root ++ [n]) sub ++ flat_map (json_below (root ++ [n])) sub
  end.

Definition json_under (root : path) (entries : list entry) : list path :=
  json_in root entries ++ flat_map (json_below root) entries.

(** [listed root entries d e]: in the tree that [root] lists as [entries],
    the directory [d] lists the entry [e]. *)
Inductive listed : path -> list entry -> path -> entry -> Prop :=
| listed_here root entries e :
    In e entries -> listed root entries root e
| listed_below root entries n sub d e :
    In (Dir n sub) entries -> listed (root ++ [n]) sub d e ->
    listed root entries d e.

(** The day number of a date: the inverse of [civil_from_days]. *)
Definition days_from_civil (y m d : Z) : Z :=
  let y := if m <=? 2 then y - 1 else y in
  let era := y / 400 in
  let yoe := y - era * 400 in
  let doy := (153 * (if 2 <? m then m - 3 else m + 9) + 2) / 5 + d - 1 in
  let doe := yoe * 365 + yoe / 4 - yoe / 100 + doy in
  era * 146097 + doe - 719468.

(** The milliseconds into the day that a time of day stands for. *)
Definition ms_of_time (t : time_of_day) : Z :=
  t_hour t * 3600000 + t_minute t * 60000 + t_second t * 1000
  + t_microsecond t / 1000.

(** The calls the songplay loop makes for one row, given what the lookup
    returned. *)
Definition songplay_calls (utcoffset : Z -> Z)
  (rr : log_rec * option (cell * cell)) : trace :=
  let '(row, results) := rr in
  [Execute song_select [song row; artist row; length row];
   Fetchone results;
   Execute songplay_table_insert (songplay_data utcoffset row results)].

(** The calls of one file followed by the commit of [process_data]. *)
Definition committed_block (calls : trace) : trace := calls ++ [Commit].

(** [files_run func tr files blocks]: started on the trace [tr], the loop of
    [process_data] over [files] returns, and [blocks] lists the calls [func]
    makes for each file in turn, each on the trace the commit of the file
    before it has left. *)
Inductive files_run (func : path -> M unit)
  : trace -> list path -> list trace -> Prop :=
| files_run_nil tr : files_run func tr [] []
| files_run_cons tr datafile files calls blocks :
    func datafile tr = (tr ++ calls, Ok tt) ->
    no_commit calls = true ->
    files_run func (tr ++ committed_block calls) files blocks ->
    files_run func tr (datafile :: files) (calls :: blocks).

(** The ISO 8601 week number of a day number, from the definition: the rank
    of the week's Thursday among the Thursdays of its year. *)
Definition iso_week (days : Z) : Z :=
  let thursday := days - (days + 3) mod 7 + 3 in
  let '(y, m, d) := civil_from_days thursday in
  (day_of_year y m d - 1) / 7 + 1.

(** The day number of 1 January, and the number of days of a year. *)
Definition year_start (y : Z) : Z := days_from_civil y 1 1.
Definition year_length (y : Z) : Z := if is_leapyear y then 366 else 365.

(** ** More ways to read a run *)

(** A call on the cursor, as opposed to the connection. *)
Definition is_cursor_call (e : event) : bool :=
  match e with
  | Execute _ _ | Fetchone _ => true
  | Commit | Close => false
  end.

Definition is_close (e : event) : bool :=
  match e with Close => true | _ => false end.

(** A computation that only adds calls to the trace, all of them [allowed],
    whether it returns or raises. *)
Definition adds_only {A} (allowed : event -> bool) (m : M A) : Prop :=
  forall tr, exists calls,
    fst (m tr) = tr ++ calls /\ forallb allowed calls = true.

(** A database that raises on no statement. *)
Definition never_raises : trace -> query -> list cell -> option exn :=
  fun _ _ _ => None.

(** [cut_short m full]: from any trace, [m] runs as [full] does, or raises
    after a part of the calls [full] makes. *)
Definition cut_short {A} (m full : M A) : Prop :=
  forall tr,
    m tr = full tr
    \/ exists e more, snd (m tr) = Raise e /\ fst (full tr) = fst (m tr) ++ more.

(** Names that are all different. *)
Fixpoint distinct (names : list string) : bool :=
  match names with
  | [] => true
  | n :: rest => negb (existsb (String.eqb n) rest) && distinct rest
  end.

(** A tree of a file system: no directory lists a name twice. *)
Fixpoint tree_ok (e : entry) : bool :=
  match e with
  | File _ => true
  | Dir _ sub => distinct (map entry_name sub) && forallb tree_ok sub
  end.

Definition listing_ok (entries : list entry) : bool :=
  distinct (map entry_name entries) && forallb tree_ok entries.

(** No directory at or below an entry has a name that [glob] reads as a
    pattern. *)
Fixpoint plain_names (e : entry) : bool :=
  match e with
  | File _ => true
  | Dir n sub => negb (has_magic_name n) && forallb plain_names sub
  end.

(** Whether the double [ts / 1e3] gives back [ts] to the microsecond: the
    seconds and microseconds that [fromtimestamp] reads from it are those of
    [ts]. *)
Definition division_is_exact (ts : Z) : bool :=
  let '(sec, us) :=
    timestamp_parts (PrimFloat.div (float_of_Z ts) (float_of_Z 1000)) in
  (sec =? ts / 1000) && (us =? (ts mod 1000) * 1000).

(** An int64 value other than the minimum, which pandas reads as a missing
    time (NaT). *)
Definition is_int64_time (ts : Z) : bool :=
  (- 2 ^ 63 <? ts) && (ts <? 2 ^ 63).

(** ** Sample inputs *)

Module Examples.

Local Open Scope string_scope.

(** A database that accepts every statement. *)
Definition accepts_all : trace -> query -> list cell -> option exn :=
  fun _ _ _ => None.

(** A database in which no song is found. *)
Definition finds_nothing : trace -> option (cell * cell) :=
  fun _ => None.

Definition song_a : song_rec :=
  {| song_id := CStr "SOUPIRU12A6D4FA1E1";
     title := CStr "Der Kleine Dompfaff";
     artist_id := CStr "ARJIE2Y1187B994AB7";
     year := CInt 0;
     duration := CFloat 152.92036%float;
     artist_name := CStr "Line Renaud";
     artist_location := CStr "";
     artist_latitude := CFloat nan;
     artist_longitude := CFloat nan |}.

Definition song_b : song_rec :=
  {| song_id := CStr "SOMZWCG12A8C13C480";
     title := CStr "I Didn't Mean To";
     artist_id := CStr "ARD7TVE1187B99BFB1";
     year := CInt 0;
     duration := CFloat 218.93179%float;
     artist_name := CStr "Casual";
     artist_location := CStr "California - LA";
     artist_latitude := CFloat nan;
     artist_longitude := CFloat nan |}.

(** A song file of one line, and one of two lines. *)
Definition one_song : path -> result (list song_rec) :=
  fun _ => Ok [song_a].
Definition two_songs : path -> result (list song_rec) :=
  fun _ => Ok [song_a; song_b].

(** Three lines of a log file: a page view and two plays one day apart. *)
Definition home_1 : log_rec :=
  {| page := CStr "Home"; ts := 1541121900000;
     userId := CStr "39"; firstName := CStr "Walter"; lastName := CStr "Frye";
     gender := CStr "M"; level := CStr "free";
     song := CNone; artist := CNone; length := CFloat nan;
     sessionId := CInt 38;
     location := CStr "San Francisco-Oakland-Hayward, CA";
     userAgent := CStr "Mozilla/5.0" |}.

Definition play_1 : log_rec :=
  {| page := CStr "NextSong"; ts := 1541121934796;
     userId := CStr "39"; firstName := CStr "Walter"; lastName := CStr "Frye";
     gender := CStr "M"; level := CStr "free";
     song := CStr "Sehr kosmisch"; artist := CStr "Harmonia";
     length := CFloat 655.77751%float;
     sessionId := CInt 38;
     location := CStr "San Francisco-Oakland-Hayward, CA";
     userAgent := CStr "Mozilla/5.0" |}.

Definition play_2 : log_rec :=
  {| page := CStr "NextSong"; ts := 1541208334796;
     userId := CStr "8"; firstName := CStr "Kaylee"; lastName := CStr "Summers";
     gender := CStr "F"; level := CStr "paid";
     song := CStr "You Gotta Be"; artist := CStr "Des'ree";
     length := CFloat 246.30812%float;
     sessionId := CInt 139;
     location := CStr "Phoenix-Mesa-Scottsdale, AZ";
     userAgent := CStr "Mozilla/5.0" |}.

Definition three_lines : path -> result (list log_rec) :=
  fun _ => Ok [home_1; play_1; play_2].

(** Two plays at the same time of day, one millisecond past 16:00 UTC, on
    1 January 1970 and on 14 March 2255. *)
Definition play_1970 : log_rec :=
  {| page := CStr "NextSong"; ts := 57600001;
     userId := CStr "39"; firstName := CStr "Walter"; lastName := CStr "Frye";
     gender := CStr "M"; level := CStr "free";
     song := CStr "Sehr kosmisch"; artist := CStr "Harmonia";
     length := CFloat 655.77751%float;
     sessionId := CInt 38;
     location := CStr "San Francisco-Oakland-Hayward, CA";
     userAgent := CStr "Mozilla/5.0" |}.

Definition play_2255 : log_rec :=
  {| page := CStr "NextSong"; ts := 9000000000001;
     userId := CStr "39"; firstName := CStr "Walter"; lastName := CStr "Frye";
     gender := CStr "M"; level := CStr "free";
     song := CStr "Sehr kosmisch"; artist := CStr "Harmonia";
     length := CFloat 655.77751%float;
     sessionId := CInt 38;
     location := CStr "San Francisco-Oakland-Hayward, CA";
     userAgent := CStr "Mozilla/5.0" |}.

Definition two_dates : path -> result (list log_rec) :=
  fun _ => Ok [play_1970; play_2255].

(** A play in the year 2262, one millisecond past the last instant that
    [pd.to_datetime] accepts. *)
Definition play_2262 : log_rec :=
  {| page := CStr "NextSong"; ts := 9223372036855;
     userId := CStr "8"; firstName := CStr "Kaylee"; lastName := CStr "Summers";
     gender := CStr "F"; level := CStr "paid";
     song := CStr "You Gotta Be"; artist := CStr "Des'ree";
     length := CFloat 246.30812%float;
     sessionId := CInt 139;
     location := CStr "Phoenix-Mesa-Scottsdale, AZ";
     userAgent := CStr "Mozilla/5.0" |}.

Definition late_lines : path -> result (list log_rec) :=
  fun _ => Ok [Examples.play_1; play_2262].

(** A database that knows one song: the lookup that follows a select on its
    title finds it. *)
Definition finds_harmonia : trace -> option (cell * cell) :=
  fun tr =>
    match last tr Close with
    | Execute song_select (CStr "Sehr kosmisch" :: _) =>
        Some (CStr "SOZCTXZ12AB0182364", CStr "AR5KOSW1187FB35FF4")
    | _ => None
    end.

(** A database that rejects the artist insert once something is committed. *)
Definition rejects_later_artists : trace -> query -> list cell -> option exn :=
  fun tr q _ =>
    match q with
    | artist_table_insert =>
        if existsb is_commit tr then Some DatabaseError else None
    | _ => None
    end.

(** Local time is UTC, or eight hours behind it. *)
Definition utc : Z -> Z := fun _ => 0.
Definition pacific : Z -> Z := fun _ => -28800.

Definition home : path := ["home"; "sparkify"].

(** A working directory with two song files, one of them hidden, and one log
    file. *)
Definition tree : list entry :=
  [Dir "data"
     [Dir "song_data"
        [Dir "A" [File "TRAAAAW128F429D538.json"; File ".TRAAABD128F429CF47.json"];
         File "README.txt"];
      Dir "log_data" [File "2018-11-02-events.json"]]].

(** A working directory with three song files and no log file. *)
Definition three_song_files : list entry :=
  [Dir "data"
     [Dir "song_data" [File "a.json"; File "b.json"; File "c.json"];
      Dir "log_data" []]].

(** A working directory with two song files, one of them in a directory
    whose name is a set of characters for [glob]. *)
Definition bracket_tree : list entry :=
  [Dir "data"
     [Dir "song_data" [Dir "[ab]" [File "p.json"]; Dir "a" [File "q.json"]];
      Dir "log_data" []]].

(** The song files of [three_song_files], as [process_data] lists them. *)
Definition file_a : path :=
  (Examples.home ++ ["data"; "song_data"; "a.json"])%list.
Definition file_b : path :=
  (Examples.home ++ ["data"; "song_data"; "b.json"])%list.
Definition file_c : path :=
  (Examples.home ++ ["data"; "song_data"; "c.json"])%list.

(** The calls of one song file holding [song_a]. *)
Definition song_a_calls : trace :=
  [Execute song_table_insert (song_data Examples.song_a);
   Execute artist_table_insert (artist_data Examples.song_a)].

End Examples.

(** ** Properties *)

(** *** Basic facts about the monad and the trace *)

Lemma execute_ok execute_error q params tr :
  execute_error tr q params = None ->
  execute execute_error q params tr = (tr ++ [Execute q params], Ok tt).
Proof. intros H. unfold execute. now rewrite H. Qed.

Lemma execute_inv execute_error q params tr tr' :
  execute execute_error q params tr = (tr', Ok tt) ->
  tr' = tr ++ [Execute q params].
Proof.
  unfold execute. destruct (execute_error tr q params); intros H.
  - discriminate.
  - now inversion H.
Qed.

(** *** process_song_file *)

(** C1, as amended: from a song file of at least one record,
    [process_song_file] issues exactly one song-table insert and one
    artist-table insert, both built from the first record of the file,
    however many records follow. *)
Theorem process_song_file_first_record :
  forall execute_error read_song_json filepath first others tr,
    read_song_json filepath = Ok (first :: others) ->
    execute_error tr song_table_insert (song_data first) = None ->
    execute_error (tr ++ [Execute song_table_insert (song_data first)])
                  artist_table_insert (artist_data first) = None ->
    let issued :=
      [Execute song_table_insert
         [song_id first; title first; artist_id first; year first;
          duration first];
       Execute artist_table_insert
         [artist_id first; artist_name first; artist_location first;
          artist_latitude first; artist_longitude first]] in
    process_song_file execute_error read_song_json filepath tr
    = (tr ++ issued, Ok tt)
    /\ List.length (executions song_table_insert issued) = 1%nat
    /\ List.length (executions artist_table_insert issued) = 1%nat.
Proof.
  intros execute_error read_song_json filepath first others tr Hread Hsong Hartist.
  cbv zeta. split; [| split; reflexivity].
  unfold process_song_file, bind, lift. rewrite Hread.
  rewrite (execute_ok _ _ _ _ Hsong).
  rewrite (execute_ok _ _ _ _ Hartist).
  now rewrite <- app_assoc.
Qed.

Lemma process_song_file_first_record_witness :
  process_song_file Examples.accepts_all Examples.two_songs ["f.json"%string] []
  = ([Execute song_table_insert (song_data Examples.song_a);
      Execute artist_table_insert (artist_data Examples.song_a)], Ok tt).
Proof.
  apply (process_song_file_first_record
           Examples.accepts_all Examples.two_songs ["f.json"%string]
           Examples.song_a [Examples.song_b] []); reflexivity.
Defined.

(** C1, as stated, fails on a file of two records: one song-table insert is
    issued for two records. *)
Lemma process_song_file_two_records :
  let tr := fst (process_song_file Examples.accepts_all Examples.two_songs
                   ["f.json"%string] []) in
  Examples.two_songs ["f.json"%string] = Ok [Examples.song_a; Examples.song_b]
  /\ List.length (executions song_table_insert tr) = 1%nat
  /\ List.length (executions artist_table_insert tr) = 1%nat
  /\ List.length (executions song_table_insert tr)
     <> List.length [Examples.song_a; Examples.song_b].
Proof.
  cbv zeta. repeat split; try reflexivity.
  vm_compute. discriminate.
Qed.

Lemma for_each_app {A} (body : A -> M unit) l1 l2 tr :
  for_each body (l1 ++ l2) tr =
  match for_each body l1 tr with
  | (mid, Ok _) => for_each body l2 mid
  | (mid, Raise e) => (mid, Raise e)
  end.
Proof.
  revert tr. induction l1 as [| x l1 IH]; intros tr; simpl.
  - reflexivity.
  - unfold bind. destruct (body x tr) as [mid [u | e]]; auto.
Qed.

Lemma for_each_execute_inv execute_error q rows tr tr' :
  for_each (fun row => execute execute_error q row) rows tr = (tr', Ok tt) ->
  tr' = tr ++ map (Execute q) rows.
Proof.
  revert tr. induction rows as [| row rows IH]; intros tr; simpl.
  - unfold ret. intros H. inversion H. now rewrite app_nil_r.
  - unfold bind. destruct (execute execute_error q row tr) as [mid [[] | e]] eqn:E.
    + intros H. apply execute_inv in E. apply IH in H. subst.
      now rewrite <- app_assoc.
    + discriminate.
Qed.

Lemma insert_songplay_inv fetchone_result execute_error utcoffset row tr tr' :
  insert_songplay fetchone_result execute_error utcoffset row tr = (tr', Ok tt) ->
  exists results, tr' = tr ++ songplay_calls utcoffset (row, results).
Proof.
  unfold insert_songplay, bind, fetchone.
  destruct (execute execute_error song_select _ tr) as [t1 [[] | e]] eqn:E1;
    [| discriminate].
  apply execute_inv in E1. subst t1. intros H. apply execute_inv in H.
  eexists. rewrite H. rewrite <- !app_assoc. reflexivity.
Qed.

Lemma for_each_insert_songplay_inv
      fetchone_result execute_error utcoffset rows tr tr' :
  for_each (insert_songplay fetchone_result execute_error utcoffset) rows tr
  = (tr', Ok tt) ->
  exists results,
    List.length results = List.length rows /\
    tr' = tr ++ flat_map (songplay_calls utcoffset) (combine rows results).
Proof.
  revert tr. induction rows as [| row rows IH]; intros tr; simpl.
  - unfold ret. intros H. inversion H. exists []. now rewrite app_nil_r.
  - unfold bind.
    destruct (insert_songplay _ _ _ row tr) as [mid [[] | e]] eqn:E;
      [| discriminate].
    intros H. apply insert_songplay_inv in E. destruct E as [r Er].
    apply IH in H. destruct H as [rs [Hlen Hrs]].
    exists (r :: rs). split; [simpl; now rewrite Hlen |].
    subst. simpl combine. simpl flat_map. now rewrite <- app_assoc.
Qed.

(** *** Computations that add no commit *)

Lemma no_commit_app a b :
  no_commit a = true -> no_commit b = true -> no_commit (a ++ b) = true.
Proof. unfold no_commit. intros Ha Hb. now rewrite forallb_app, Ha, Hb. Qed.

Lemma adds_no_commit_lift {A} (r : result A) : adds_no_commit (lift r).
Proof. intros tr. exists []. now rewrite app_nil_r. Qed.

Lemma adds_no_commit_ret {A} (a : A) : adds_no_commit (ret a).
Proof. intros tr. exists []. now rewrite app_nil_r. Qed.

Lemma adds_no_commit_raise {A} e : adds_no_commit (@raise A e).
Proof. intros tr. exists []. now rewrite app_nil_r. Qed.

Lemma adds_no_commit_bind {A B} (m : M A) (k : A -> M B) :
  adds_no_commit m -> (forall a, adds_no_commit (k a)) ->
  adds_no_commit (bind m k).
Proof.
  intros Hm Hk tr. destruct (Hm tr) as [c1 [E1 N1]]. unfold bind.
  destruct (m tr) as [mid [a | e]]; simpl in E1; subst mid.
  - destruct (Hk a (tr ++ c1)) as [c2 [E2 N2]].
    exists (c1 ++ c2). rewrite E2, app_assoc. auto using no_commit_app.
  - now exists c1.
Qed.

Lemma adds_no_commit_execute execute_error q params :
  adds_no_commit (execute execute_error q params).
Proof.
  intros tr. unfold execute. destruct (execute_error tr q params).
  - exists []. now rewrite app_nil_r.
  - now exists [Execute q params].
Qed.

Lemma adds_no_commit_fetchone fetchone_result :
  adds_no_commit (fetchone fetchone_result).
Proof. intros tr. now exists [Fetchone (fetchone_result tr)]. Qed.

Lemma adds_no_commit_for_each {A} (body : A -> M unit) l :
  (forall x, adds_no_commit (body x)) -> adds_no_commit (for_each body l).
Proof.
  intros Hbody. induction l as [| x l IH]; simpl.
  - apply adds_no_commit_ret.
  - apply adds_no_commit_bind; auto.
Qed.

Create HintDb etl.

#[local] Hint Resolve adds_no_commit_lift adds_no_commit_ret
  adds_no_commit_raise adds_no_commit_execute adds_no_commit_fetchone
  adds_no_commit_for_each : etl.

Lemma process_song_file_commit_free execute_error read_song_json :
  commit_free (process_song_file execute_error read_song_json).
Proof.
  intros datafile. unfold process_song_file.
  apply adds_no_commit_bind; auto with etl.
  intros [| first others]; auto with etl.
  apply adds_no_commit_bind; auto with etl.
Qed.

Lemma process_log_file_commit_free
      fetchone_result execute_error read_log_json utcoffset :
  commit_free
    (process_log_file fetchone_result execute_error read_log_json utcoffset).
Proof.
  intros datafile. unfold process_log_file.
  apply adds_no_commit_bind; auto with etl.
  intros [| row rows]; auto with etl.
  repeat (apply adds_no_commit_bind; auto with etl; intros).
  apply adds_no_commit_for_each. intros x. unfold insert_songplay.
  repeat (apply adds_no_commit_bind; auto with etl; intros).
Qed.

(** *** What is pending after a commit *)

Lemma pending_no_commit calls acc :
  no_commit calls = true -> pending acc calls = acc ++ calls.
Proof.
  revert acc. induction calls as [| e calls IH]; intros acc H; simpl.
  - now rewrite app_nil_r.
  - simpl in H. apply andb_prop in H. destruct H as [He Hc].
    destruct e; try discriminate; rewrite IH by assumption;
      now rewrite <- app_assoc.
Qed.

Lemma pending_app tr calls acc :
  no_commit calls = true -> pending acc (tr ++ calls) = pending acc tr ++ calls.
Proof.
  revert acc. induction tr as [| e tr IH]; intros acc H; simpl.
  - now apply pending_no_commit.
  - destruct e; now rewrite IH.
Qed.

Lemma pending_commit tr acc : pending acc (tr ++ [Commit]) = [].
Proof.
  revert acc. induction tr as [| e tr IH]; intros acc; simpl.
  - reflexivity.
  - destruct e; apply IH.
Qed.

Lemma uncommitted_app tr calls :
  no_commit calls = true -> uncommitted (tr ++ calls) = uncommitted tr ++ calls.
Proof. apply pending_app. Qed.

Lemma uncommitted_commit tr : uncommitted (tr ++ [Commit]) = [].
Proof. apply pending_commit. Qed.

(** *** The calls of a log file *)

Lemma executions_app q a b :
  executions q (a ++ b) = executions q a ++ executions q b.
Proof. apply filter_app. Qed.

Lemma executions_map_same {A} q (f : A -> list cell) l :
  executions q (map (fun x => Execute q (f x)) l)
  = map (fun x => Execute q (f x)) l.
Proof.
  induction l as [| x l IH]; simpl; [reflexivity |].
  replace (query_eqb q q) with true by now destruct q.
  now rewrite <- IH at 2.
Qed.

Lemma executions_map_other {A} q q' (f : A -> list cell) l :
  query_eqb q q' = false ->
  executions q (map (fun x => Execute q' (f x)) l) = [].
Proof. intros H. induction l as [| x l IH]; simpl; [| rewrite H]; auto. Qed.

Lemma executions_songplay_calls q utcoffset rrs :
  executions q (flat_map (songplay_calls utcoffset) rrs)
  = flat_map (fun rr => executions q (songplay_calls utcoffset rr)) rrs.
Proof.
  induction rrs as [| rr rrs IH]; [reflexivity |].
  cbn [flat_map]. now rewrite executions_app, IH.
Qed.

Lemma fetched_app a b : fetched (a ++ b) = fetched a ++ fetched b.
Proof.
  induction a as [| e a IH]; simpl; [reflexivity |].
  destruct e; simpl; now rewrite IH.
Qed.

Lemma fetched_map_execute {A} q (f : A -> list cell) l :
  fetched (map (fun x => Execute q (f x)) l) = [].
Proof. induction l; simpl; auto. Qed.

Lemma fetched_songplay_calls utcoffset rows results :
  List.length results = List.length rows ->
  fetched (flat_map (songplay_calls utcoffset) (combine rows results)) = results.
Proof.
  revert results. induction rows as [| row rows IH]; intros [| r rs] H;
    try discriminate; [reflexivity |].
  simpl. f_equal. apply IH. now inversion H.
Qed.

Lemma process_log_file_inv
      fetchone_result execute_error read_log_json utcoffset filepath df tr tr' :
  read_log_json filepath = Ok df ->
  process_log_file fetchone_result execute_error read_log_json utcoffset
                   filepath tr = (tr', Ok tt) ->
  let rows := filter is_NextSong df in
  forallb in_datetime_bounds (map ts rows) = true /\
  exists results,
    List.length results = List.length rows /\
    tr' = tr
          ++ map (fun row => Execute time_table_insert (time_data (ts row))) rows
          ++ map (fun row => Execute user_table_insert (user_data row)) rows
          ++ flat_map (songplay_calls utcoffset) (combine rows results).
Proof.
  intros Hread. unfold process_log_file, bind at 1, lift at 1. rewrite Hread.
  destruct df as [| r df']; [discriminate |].
  remember (filter is_NextSong (r :: df')) as rows eqn:Hrows. cbv zeta.
  unfold bind at 1, lift, to_datetime.
  destruct (forallb in_datetime_bounds (map ts rows)) eqn:Hb; [| discriminate].
  unfold bind at 1.
  destruct (for_each _ (map time_data (map ts rows)) tr)
    as [t1 [[] | e]] eqn:E1; [| discriminate].
  apply for_each_execute_inv in E1.
  unfold bind at 1.
  destruct (for_each _ (map user_data rows) t1)
    as [t2 [[] | e]] eqn:E2; [| discriminate].
  apply for_each_execute_inv in E2.
  intros H. apply for_each_insert_songplay_inv in H.
  destruct H as [results [Hlen Htr]].
  split; [reflexivity |]. exists results. split; [assumption |].
  subst tr' t2 t1. rewrite !map_map, <- !app_assoc. reflexivity.
Qed.

(** The same fact on the two components of the run. *)
Lemma process_log_file_calls
      fetchone_result execute_error read_log_json utcoffset filepath df tr :
  read_log_json filepath = Ok df ->
  snd (process_log_file fetchone_result execute_error read_log_json utcoffset
                        filepath tr) = Ok tt ->
  let rows := filter is_NextSong df in
  forallb in_datetime_bounds (map ts rows) = true /\
  exists results,
    List.length results = List.length rows /\
    fst (process_log_file fetchone_result execute_error read_log_json utcoffset
                          filepath tr)
    = tr
      ++ map (fun row => Execute time_table_insert (time_data (ts row))) rows
      ++ map (fun row => Execute user_table_insert (user_data row)) rows
      ++ flat_map (songplay_calls utcoffset) (combine rows results).
Proof.
  intros Hread Hok.
  destruct (process_log_file _ _ _ _ filepath tr) as [tr' r] eqn:E.
  simpl in Hok. subst r.
  exact (process_log_file_inv _ _ _ _ _ _ _ _ Hread E).
Qed.

Lemma lookups_map_insert {A} q (f : A -> list cell) l :
  is_insert q = true ->
  filter (fun e => negb (is_insert_event e)) (map (fun x => Execute q (f x)) l)
  = [].
Proof. intros H. induction l as [| x l IH]; simpl; [| rewrite H]; auto. Qed.

Lemma lookups_songplay_calls utcoffset rrs :
  filter (fun e => negb (is_insert_event e))
         (flat_map (songplay_calls utcoffset) rrs)
  = flat_map (fun rr => [Execute song_select
                           [song (fst rr); artist (fst rr); length (fst rr)];
                         Fetchone (snd rr)]) rrs.
Proof.
  induction rrs as [| [row results] rrs IH]; [reflexivity |].
  cbn [flat_map]. rewrite filter_app, IH. reflexivity.
Qed.

Lemma selects_songplay_calls utcoffset rows results :
  List.length results = List.length rows ->
  executions song_select
             (flat_map (songplay_calls utcoffset) (combine rows results))
  = map (fun row => Execute song_select [song row; artist row; length row])
        rows.
Proof.
  revert results. induction rows as [| row rows IH]; intros [| r rs] H;
    try discriminate; [reflexivity |].
  simpl. f_equal. apply IH. now inversion H.
Qed.

Lemma songplays_songplay_calls utcoffset rrs :
  executions songplay_table_insert (flat_map (songplay_calls utcoffset) rrs)
  = map (fun rr => Execute songplay_table_insert
                     (songplay_data utcoffset (fst rr) (snd rr))) rrs.
Proof.
  induction rrs as [| [row results] rrs IH]; [reflexivity |].
  simpl. f_equal. apply IH.
Qed.

Lemma others_songplay_calls q utcoffset rrs :
  query_eqb q song_select = false ->
  query_eqb q songplay_table_insert = false ->
  executions q (flat_map (songplay_calls utcoffset) rrs) = [].
Proof.
  intros H1 H2. induction rrs as [| [row results] rrs IH]; [reflexivity |].
  simpl. rewrite H1, H2. apply IH.
Qed.

(** *** The song lookup *)

(** C2: in a log file that is processed to its end, the songplay loop looks
    the song up by one [song_select] per NextSong row, whose parameters are
    the row's song, artist and length in that order; the calls that are not
    inserts are these selects, each followed by the one [fetchone] that reads
    its answer, and nothing else. *)
Theorem song_lookup_is_one_query :
  forall fetchone_result execute_error read_log_json utcoffset filepath df tr,
    read_log_json filepath = Ok df ->
    snd (process_log_file fetchone_result execute_error read_log_json
                          utcoffset filepath tr) = Ok tt ->
    let rows := filter is_NextSong df in
    exists calls,
      fst (process_log_file fetchone_result execute_error read_log_json
                            utcoffset filepath tr) = tr ++ calls
      /\ executions song_select calls
         = map (fun row => Execute song_select
                             [song row; artist row; length row]) rows
      /\ List.length (fetched calls) = List.length rows
      /\ filter (fun e => negb (is_insert_event e)) calls
         = flat_map (fun rr => [Execute song_select
                                  [song (fst rr); artist (fst rr);
                                   length (fst rr)];
                                Fetchone (snd rr)])
                    (combine rows (fetched calls)).
Proof.
  intros fr ee read off filepath df tr Hread Hok rows.
  destruct (process_log_file_calls _ _ _ _ _ _ _ Hread Hok)
    as [_ [results [Hlen Hcalls]]].
  fold rows in Hlen, Hcalls.
  eexists. split; [exact Hcalls |].
  assert (Hf : fetched
                 (map (fun row => Execute time_table_insert (time_data (ts row))) rows
                  ++ map (fun row => Execute user_table_insert (user_data row)) rows
                  ++ flat_map (songplay_calls off) (combine rows results))
               = results).
  { rewrite !fetched_app, !fetched_map_execute.
    now apply fetched_songplay_calls. }
  rewrite Hf. split; [| split; [assumption |]].
  - rewrite !executions_app.
    rewrite !executions_map_other by reflexivity.
    now apply selects_songplay_calls.
  - rewrite !filter_app.
    rewrite !lookups_map_insert by reflexivity.
    apply lookups_songplay_calls.
Qed.

Lemma song_lookup_is_one_query_witness :
  exists calls,
    fst (process_log_file Examples.finds_harmonia Examples.accepts_all
           Examples.three_lines Examples.utc ["events.json"%string] [])
    = [] ++ calls
    /\ executions song_select calls
       = map (fun row => Execute song_select [song row; artist row; length row])
             (filter is_NextSong [Examples.home_1; Examples.play_1; Examples.play_2])
    /\ List.length (fetched calls)
       = List.length (filter is_NextSong
                        [Examples.home_1; Examples.play_1; Examples.play_2])
    /\ filter (fun e => negb (is_insert_event e)) calls
       = flat_map (fun rr => [Execute song_select
                                [song (fst rr); artist (fst rr); length (fst rr)];
                              Fetchone (snd rr)])
                  (combine (filter is_NextSong
                              [Examples.home_1; Examples.play_1; Examples.play_2])
                           (fetched calls)).
Proof.
  apply (song_lookup_is_one_query
           Examples.finds_harmonia Examples.accepts_all Examples.three_lines
           Examples.utc ["events.json"%string]
           [Examples.home_1; Examples.play_1; Examples.play_2] []);
    reflexivity.
Defined.

(** *** The songplay record *)

(** C5: in a log file that is processed to its end, exactly one
    songplay-table insert is issued per NextSong row, in the order of the
    rows; its parameters are (start_time, userId, level, songid, artistid,
    sessionId, location, userAgent), the identifiers being those the lookup
    of that row returned, or None when it returned nothing. *)
Theorem one_songplay_per_row :
  forall fetchone_result execute_error read_log_json utcoffset filepath df tr,
    read_log_json filepath = Ok df ->
    snd (process_log_file fetchone_result execute_error read_log_json
                          utcoffset filepath tr) = Ok tt ->
    let rows := filter is_NextSong df in
    exists calls,
      fst (process_log_file fetchone_result execute_error read_log_json
                            utcoffset filepath tr) = tr ++ calls
      /\ List.length (fetched calls) = List.length rows
      /\ List.length (executions songplay_table_insert calls)
         = List.length rows
      /\ executions songplay_table_insert calls
         = map (fun rr : log_rec * option (cell * cell) =>
                  let (row, results) := rr in
                  let ids := match results with
                             | Some found => found
                             | None => (CNone, CNone)
                             end in
                  Execute songplay_table_insert
                    [CStr (start_time_of utcoffset (ts row)); userId row;
                     level row; fst ids; snd ids; sessionId row;
                     location row; userAgent row])
               (combine rows (fetched calls)).
Proof.
  intros fr ee read off filepath df tr Hread Hok rows.
  destruct (process_log_file_calls _ _ _ _ _ _ _ Hread Hok)
    as [_ [results [Hlen Hcalls]]].
  fold rows in Hlen, Hcalls.
  eexists. split; [exact Hcalls |].
  rewrite !fetched_app, !fetched_map_execute,
    (fetched_songplay_calls _ _ _ Hlen).
  rewrite !executions_app.
  rewrite !executions_map_other by reflexivity.
  rewrite songplays_songplay_calls. simpl app.
  split; [assumption |]. split.
  - rewrite length_map, length_combine, Hlen. apply Nat.min_id.
  - apply map_ext. intros [row [[songid artistid] |]]; reflexivity.
Qed.

Lemma one_songplay_per_row_witness :
  exists calls,
    fst (process_log_file Examples.finds_harmonia Examples.accepts_all
           Examples.three_lines Examples.pacific ["events.json"%string] [])
    = [] ++ calls
    /\ List.length (fetched calls) = 2%nat
    /\ List.length (executions songplay_table_insert calls) = 2%nat
    /\ executions songplay_table_insert calls
       = map (fun rr : log_rec * option (cell * cell) =>
                let (row, results) := rr in
                let ids := match results with
                           | Some found => found
                           | None => (CNone, CNone)
                           end in
                Execute songplay_table_insert
                  [CStr (start_time_of Examples.pacific (ts row)); userId row;
                   level row; fst ids; snd ids; sessionId row;
                   location row; userAgent row])
             (combine [Examples.play_1; Examples.play_2] (fetched calls)).
Proof.
  apply (one_songplay_per_row
           Examples.finds_harmonia Examples.accepts_all Examples.three_lines
           Examples.pacific ["events.json"%string]
           [Examples.home_1; Examples.play_1; Examples.play_2] []);
    reflexivity.
Defined.

(** *** The calendar fields of a timestamp *)

Ltac bool_to_prop :=
  repeat match goal with
         | H : (_ =? _) = true |- _ => apply Z.eqb_eq in H
         | H : (_ =? _) = false |- _ => apply Z.eqb_neq in H
         | H : (_ <? _) = true |- _ => apply Z.ltb_lt in H
         | H : (_ <? _) = false |- _ => apply Z.ltb_ge in H
         | H : (_ <=? _) = true |- _ => apply Z.leb_le in H
         | H : (_ <=? _) = false |- _ => apply Z.leb_gt in H
         end.

Ltac eval_month_offsets :=
  repeat match goal with
         | |- context [month_offset true ?m] =>
             let v := eval vm_compute in (month_offset true m) in
             change (month_offset true m) with v
         | |- context [month_offset false ?m] =>
             let v := eval vm_compute in (month_offset false m) in
             change (month_offset false m) with v
         end.

Lemma year_of_era_bounds doe :
  0 <= doe < 146097 ->
  0 <= (doe - doe / 1460 + doe / 36524 - doe / 146096) / 365 < 400.
Proof. intros H. Z.to_euclidean_division_equations. lia. Qed.

Lemma day_of_era_year_bounds doe :
  0 <= doe < 146097 ->
  let yoe := (doe - doe / 1460 + doe / 36524 - doe / 146096) / 365 in
  0 <= doe - (365 * yoe + yoe / 4 - yoe / 100) < 366.
Proof. intros H yoe. subst yoe. Z.to_euclidean_division_equations. lia. Qed.

(** The year that starts on 1 March has 366 days only when the next civil
    year is a leap year. *)
Lemma last_day_of_era_year doe era :
  0 <= doe < 146097 ->
  let yoe := (doe - doe / 1460 + doe / 36524 - doe / 146096) / 365 in
  doe - (365 * yoe + yoe / 4 - yoe / 100) = 365 ->
  is_leapyear (yoe + era * 400 + 1) = true.
Proof.
  intros H yoe. subst yoe. intros Hlast. unfold is_leapyear.
  set (y := (doe - doe / 1460 + doe / 36524 - doe / 146096) / 365
            + era * 400 + 1).
  assert (Hy : y = (doe - doe / 1460 + doe / 36524 - doe / 146096) / 365
                   + era * 400 + 1) by reflexivity.
  clearbody y.
  destruct (y mod 4 =? 0) eqn:E4; destruct (y mod 100 =? 0) eqn:E100;
    destruct (y mod 400 =? 0) eqn:E400; simpl; try reflexivity;
    exfalso; bool_to_prop; Z.to_euclidean_division_equations; lia.
Qed.

(** The date of a day number is a date of the calendar, and it is the date
    of that day number. *)
Lemma civil_from_days_spec days :
  let '(y, m, d) := civil_from_days days in
  days_from_civil y m d = days
  /\ 1 <= m <= 12 /\ 1 <= d <= 31
  /\ month_offset (is_leapyear y) m + d
     <= month_offset (is_leapyear y) (m + 1).
Proof.
  unfold civil_from_days.
  set (z := days + 719468).
  set (era := z / 146097).
  set (doe := z - era * 146097).
  assert (Hdoe : 0 <= doe < 146097).
  { subst doe era. pose proof (Z.mod_pos_bound z 146097 eq_refl) as Hm.
    rewrite Z.mod_eq in Hm by discriminate. lia. }
  pose proof (year_of_era_bounds doe Hdoe) as Hyoe.
  pose proof (day_of_era_year_bounds doe Hdoe) as Hdoy.
  pose proof (last_day_of_era_year doe era Hdoe) as Hlast.
  cbv zeta in Hdoy, Hlast.
  set (yoe := (doe - doe / 1460 + doe / 36524 - doe / 146096) / 365) in *.
  set (doy := doe - (365 * yoe + yoe / 4 - yoe / 100)) in *.
  set (mp := (5 * doy + 2) / 153).
  assert (Hmp : 153 * mp <= 5 * doy + 2 < 153 * mp + 153)
    by (subst mp; Z.to_euclidean_division_equations; lia).
  clearbody mp.
  set (d := doy - (153 * mp + 2) / 5 + 1).
  assert (Hcases : mp = 0 \/ mp = 1 \/ mp = 2 \/ mp = 3 \/ mp = 4 \/ mp = 5
                   \/ mp = 6 \/ mp = 7 \/ mp = 8 \/ mp = 9 \/ mp = 10
                   \/ mp = 11) by lia.
  unfold days_from_civil.
  destruct (mp <? 10) eqn:Emp; bool_to_prop.
  - replace (mp + 3 <=? 2) with false by (symmetry; apply Z.leb_gt; lia).
    replace (2 <? mp + 3) with true by (symmetry; apply Z.ltb_lt; lia).
    rewrite Z.add_0_r.
    replace ((yoe + era * 400) / 400) with era
      by (apply Z.div_unique with yoe; lia).
    replace (mp + 3 - 3) with mp by lia.
    replace (yoe + era * 400 - era * 400) with yoe by lia.
    split; [subst d doy doe z; lia |].
    split; [lia |].
    repeat (destruct Hcases as [-> | Hcases]); try lia;
      destruct (is_leapyear (yoe + era * 400)); eval_month_offsets;
      subst d; Z.to_euclidean_division_equations; lia.
  - replace (mp - 9 <=? 2) with true by (symmetry; apply Z.leb_le; lia).
    replace (2 <? mp - 9) with false by (symmetry; apply Z.ltb_ge; lia).
    replace (yoe + era * 400 + 1 - 1) with (yoe + era * 400) by lia.
    replace ((yoe + era * 400) / 400) with era
      by (apply Z.div_unique with yoe; lia).
    replace (mp - 9 + 9) with mp by lia.
    replace (yoe + era * 400 - era * 400) with yoe by lia.
    split; [subst d doy doe z; lia |].
    split; [lia |].
    repeat (destruct Hcases as [-> | Hcases]); try lia.
    + destruct (is_leapyear (yoe + era * 400 + 1)); eval_month_offsets;
        subst d; Z.to_euclidean_division_equations; lia.
    + subst mp.
      destruct (is_leapyear (yoe + era * 400 + 1)) eqn:El; eval_month_offsets;
        subst d.
      * Z.to_euclidean_division_equations; lia.
      * assert (doy <> 365)
          by (intros E; specialize (Hlast E); congruence).
        Z.to_euclidean_division_equations; lia.
Qed.

Lemma month_offset_bounds leap m :
  1 <= m <= 12 -> 0 <= month_offset leap m <= 335.
Proof.
  intros H.
  assert (Hm : m = 1 \/ m = 2 \/ m = 3 \/ m = 4 \/ m = 5 \/ m = 6 \/ m = 7
               \/ m = 8 \/ m = 9 \/ m = 10 \/ m = 11 \/ m = 12) by lia.
  repeat (destruct Hm as [-> | Hm]); try subst m; destruct leap;
    eval_month_offsets; lia.
Qed.

Lemma week_of_year_bounds y m d dow :
  1 <= m <= 12 -> 1 <= d <= 31 -> 0 <= dow < 7 ->
  1 <= week_of_year y m d dow <= 53.
Proof.
  intros Hm Hd Hdow. unfold week_of_year, day_of_year.
  pose proof (month_offset_bounds (is_leapyear y) m Hm) as Ho.
  set (woy := month_offset (is_leapyear y) m + d - 1 - dow + 3).
  destruct (woy <? 0) eqn:E.
  - destruct ((-2 <? woy) || ((woy =? -2) && is_leapyear (y - 1))); lia.
  - apply Z.ltb_ge in E.
    destruct ((woy / 7 + 1 =? 53) && (31 - d + dow <? 3)); [lia |].
    subst woy. Z.to_euclidean_division_equations. lia.
Qed.

Ltac split_leapyear y :=
  unfold is_leapyear;
  destruct (y mod 4 =? 0) eqn:?E4; destruct (y mod 100 =? 0) eqn:?E100;
  destruct (y mod 400 =? 0) eqn:?E400; cbn [andb orb negb];
  bool_to_prop.

Lemma year_start_next y : year_start (y + 1) = year_start y + year_length y.
Proof.
  unfold year_start, year_length, days_from_civil. simpl.
  replace (y + 1 - 1) with y by lia.
  split_leapyear y; Z.to_euclidean_division_equations; lia.
Qed.

Lemma year_start_mono a b : a <= b -> year_start a <= year_start b.
Proof.
  intros H. unfold year_start, days_from_civil. simpl.
  Z.to_euclidean_division_equations. lia.
Qed.

Lemma march_start y : days_from_civil y 3 1 = year_start y + year_length y - 306.
Proof.
  unfold year_start, year_length, days_from_civil. simpl.
  split_leapyear y; Z.to_euclidean_division_equations; lia.
Qed.

Lemma days_from_civil_year_start y m d :
  1 <= m <= 12 ->
  days_from_civil y m d = year_start y + day_of_year y m d - 1.
Proof.
  intros Hm. unfold day_of_year.
  assert (Hcases : m = 1 \/ m = 2 \/ 3 <= m) by lia.
  destruct Hcases as [-> | [-> | H3]].
  - destruct (is_leapyear y); eval_month_offsets;
      unfold year_start, days_from_civil;
      change (1 <=? 2) with true; change (2 <? 1) with false; cbv iota;
      Z.to_euclidean_division_equations; lia.
  - destruct (is_leapyear y); eval_month_offsets;
      unfold year_start, days_from_civil;
      change (1 <=? 2) with true; change (2 <? 1) with false;
      change (2 <=? 2) with true; change (2 <? 2) with false; cbv iota;
      Z.to_euclidean_division_equations; lia.
  - assert (Hmarch : days_from_civil y m d
                     = days_from_civil y 3 1 + (153 * (m - 3) + 2) / 5 + d - 1).
    { unfold days_from_civil.
      replace (m <=? 2) with false by (symmetry; apply Z.leb_gt; lia).
      replace (2 <? m) with true by (symmetry; apply Z.ltb_lt; lia).
      change (3 <=? 2) with false. change (2 <? 3) with true. cbv iota.
      Z.to_euclidean_division_equations. lia. }
    rewrite Hmarch, march_start. unfold year_length.
    assert (Hc : m = 3 \/ m = 4 \/ m = 5 \/ m = 6 \/ m = 7 \/ m = 8 \/ m = 9
                 \/ m = 10 \/ m = 11 \/ m = 12) by lia.
    repeat (destruct Hc as [-> | Hc]); try subst m;
      destruct (is_leapyear y); eval_month_offsets;
      Z.to_euclidean_division_equations; lia.
Qed.

Lemma month_offset_next leap m :
  1 <= m <= 12 ->
  month_offset leap (m + 1) <= (if leap then 366 else 365)
  /\ (m <= 11 -> month_offset leap (m + 1) <= 335)
  /\ (m = 12 -> month_offset leap m = (if leap then 366 else 365) - 31).
Proof.
  intros H.
  assert (Hm : m = 1 \/ m = 2 \/ m = 3 \/ m = 4 \/ m = 5 \/ m = 6 \/ m = 7
               \/ m = 8 \/ m = 9 \/ m = 10 \/ m = 11 \/ m = 12) by lia.
  repeat (destruct Hm as [-> | Hm]); try subst m; destruct leap;
    eval_month_offsets; lia.
Qed.

(** A day number lies in the year of its date, at the rank [day_of_year]
    gives, and in December when that rank is past 335. *)
Lemma day_in_its_year z y m d :
  civil_from_days z = (y, m, d) ->
  year_start y <= z < year_start (y + 1)
  /\ day_of_year y m d = z - year_start y + 1
  /\ 1 <= m <= 12 /\ 1 <= d <= 31
  /\ (335 < day_of_year y m d -> d = day_of_year y m d - (year_length y - 31)).
Proof.
  intros E. pose proof (civil_from_days_spec z) as H. rewrite E in H.
  destruct H as [Hround [Hm [Hd Hlen]]].
  pose proof (days_from_civil_year_start y m d Hm) as Hstart.
  pose proof (month_offset_next (is_leapyear y) m Hm) as [Hyear [Hnov Hdec]].
  pose proof (month_offset_bounds (is_leapyear y) m Hm) as Ho.
  rewrite year_start_next. unfold day_of_year, year_length in *.
  repeat split; lia.
Qed.

Lemma year_of_day z y m d y' :
  civil_from_days z = (y, m, d) ->
  year_start y' <= z < year_start (y' + 1) ->
  y = y'.
Proof.
  intros E Hz. destruct (day_in_its_year _ _ _ _ E) as [Hy _].
  destruct (Z.lt_trichotomy y y') as [Hlt | [Heq | Hgt]]; [| assumption |].
  - pose proof (year_start_mono (y + 1) y' ltac:(lia)). lia.
  - pose proof (year_start_mono (y' + 1) y ltac:(lia)). lia.
Qed.

Lemma year_length_bounds y : 365 <= year_length y <= 366.
Proof. unfold year_length. destruct (is_leapyear y); lia. Qed.

(** The Thursday of the week of a day falls in the year of the day, in the
    year before or in the year after. *)
Lemma year_of_thursday z y m d t yt mt dt :
  civil_from_days z = (y, m, d) ->
  t = z - (z + 3) mod 7 + 3 ->
  civil_from_days t = (yt, mt, dt) ->
  (t < year_start y /\ yt = y - 1)
  \/ (year_start y <= t < year_start (y + 1) /\ yt = y)
  \/ (year_start (y + 1) <= t /\ yt = y + 1).
Proof.
  intros E Ht Et.
  pose proof (Z.mod_pos_bound (z + 3) 7 eq_refl) as Hdow.
  destruct (day_in_its_year _ _ _ _ E) as [Hz _].
  pose proof (year_start_next (y - 1)) as Hprev.
  replace (y - 1 + 1) with y in Hprev by lia.
  pose proof (year_start_next (y + 1)) as Hnext.
  pose proof (year_length_bounds (y - 1)).
  pose proof (year_length_bounds (y + 1)).
  destruct (Z.lt_ge_cases t (year_start y)) as [Hlt | Hge].
  - left. split; [assumption |].
    apply (year_of_day _ _ _ _ _ Et).
    replace (y - 1 + 1) with y by lia. lia.
  - destruct (Z.lt_ge_cases t (year_start (y + 1))) as [Hlt' | Hge'].
    + right. left. split; [lia |]. apply (year_of_day _ _ _ _ _ Et). lia.
    + right. right. split; [assumption |].
      apply (year_of_day _ _ _ _ _ Et). lia.
Qed.

(** The week number read from a date is its ISO 8601 week number. *)
Lemma week_of_year_iso_week z y m d :
  civil_from_days z = (y, m, d) ->
  week_of_year y m d ((z + 3) mod 7) = iso_week z.
Proof.
  intros E. unfold iso_week.
  set (dow := (z + 3) mod 7).
  assert (Hdow : 0 <= dow < 7) by (apply Z.mod_pos_bound; reflexivity).
  set (t := z - dow + 3).
  destruct (civil_from_days t) as [[yt mt] dt] eqn:Et.
  pose proof (year_of_thursday z y m d t yt mt dt E eq_refl Et) as Hyt.
  destruct (day_in_its_year _ _ _ _ E) as [Hz [Hdoy [Hm [Hd Hdec]]]].
  destruct (day_in_its_year _ _ _ _ Et) as [_ [Hdoyt _]].
  pose proof (year_start_next (y - 1)) as Hprev.
  replace (y - 1 + 1) with y in Hprev by lia.
  pose proof (year_start_next y) as Hnext.
  unfold week_of_year. rewrite Hdoyt. cbv zeta.
  set (doy := day_of_year y m d) in *.
  set (woy := doy - 1 - dow + 3).
  assert (Hwoy : woy = t - year_start y) by (subst woy t; lia).
  assert (Ht : t = z - dow + 3) by reflexivity.
  clearbody woy t doy dow.
  unfold year_length in *.
  destruct (is_leapyear y); destruct (is_leapyear (y - 1));
    destruct Hyt as [[Hc ->] | [[Hc ->] | [Hc ->]]];
    destruct (woy <? 0) eqn:E1; bool_to_prop; try lia;
    destruct (-2 <? woy) eqn:E2; destruct (woy =? -2) eqn:E3;
    destruct (woy / 7 + 1 =? 53) eqn:E5;
    destruct (31 - d + dow <? 3) eqn:E6;
    cbn [andb orb]; bool_to_prop;
    Z.to_euclidean_division_equations; lia.
Qed.

Lemma ms_of_time_of_ms r :
  0 <= r < ms_per_day -> ms_of_time (time_of_ms r) = r.
Proof.
  unfold ms_per_day, ms_of_time, time_of_ms.
  cbn [t_hour t_minute t_second t_microsecond].
  intros Hr. rewrite Z.div_mul by lia.
  Z.to_euclidean_division_equations. lia.
Qed.

(** The fields read from a timestamp decompose it. *)
Lemma timestamp_decomposition t :
  days_from_civil (dt_year t) (dt_month t) (dt_day t) * ms_per_day
  + ms_of_time (dt_time t) = t
  /\ dt_hour t = t_hour (dt_time t) /\ 0 <= dt_hour t < 24
  /\ 1 <= dt_month t <= 12 /\ 1 <= dt_day t <= 31
  /\ dt_weekofyear t = iso_week (epoch_day t)
  /\ 1 <= dt_weekofyear t <= 53
  /\ 0 <= dt_weekday t < 7.
Proof.
  pose proof (civil_from_days_spec (epoch_day t)) as Hspec.
  pose proof (week_of_year_iso_week (epoch_day t)) as Hiso.
  unfold dt_year, dt_month, dt_day, dt_weekofyear, dt_weekday, dt_hour, dt_time.
  destruct (civil_from_days (epoch_day t)) as [[y m] d].
  destruct Hspec as [Hround [Hm [Hd _]]].
  specialize (Hiso y m d eq_refl).
  assert (Hdow : 0 <= (epoch_day t + 3) mod 7 < 7)
    by (apply Z.mod_pos_bound; reflexivity).
  assert (Hms : 0 <= ms_of_day t < ms_per_day)
    by (apply Z.mod_pos_bound; reflexivity).
  pose proof (week_of_year_bounds y m d _ Hm Hd Hdow) as Hweek.
  repeat split; try lia; try assumption.
  - rewrite Hround, (ms_of_time_of_ms _ Hms). unfold epoch_day, ms_of_day.
    pose proof (Z.div_mod t ms_per_day ltac:(discriminate)). lia.
  - apply Z.div_pos; [lia | reflexivity].
  - apply Z.div_lt_upper_bound; [reflexivity |]. unfold ms_per_day in Hms. lia.
Qed.

(** *** The time table *)

(** C6: in a log file that is processed to its end, exactly one time-table
    insert is issued per NextSong row, in the order of the rows; its
    parameters are (timestamp, hour, day, week of year, month, year, weekday)
    read from the row's [ts], and these fields do decompose [ts]: the date and
    the time of day give [ts] back, and the week is the ISO week of the
    date. *)
Theorem one_time_row_per_row :
  forall fetchone_result execute_error read_log_json utcoffset filepath df tr,
    read_log_json filepath = Ok df ->
    snd (process_log_file fetchone_result execute_error read_log_json
                          utcoffset filepath tr) = Ok tt ->
    let rows := filter is_NextSong df in
    exists calls,
      fst (process_log_file fetchone_result execute_error read_log_json
                            utcoffset filepath tr) = tr ++ calls
      /\ List.length (executions time_table_insert calls) = List.length rows
      /\ executions time_table_insert calls
         = map (fun row =>
                  let t := ts row in
                  Execute time_table_insert
                    [CTime (dt_time t); CInt (dt_hour t); CInt (dt_day t);
                     CInt (dt_weekofyear t); CInt (dt_month t);
                     CInt (dt_year t); CInt (dt_weekday t)]) rows
      /\ forall row, In row rows ->
           let t := ts row in
           days_from_civil (dt_year t) (dt_month t) (dt_day t) * ms_per_day
           + ms_of_time (dt_time t) = t
           /\ dt_hour t = t_hour (dt_time t) /\ 0 <= dt_hour t < 24
           /\ 1 <= dt_month t <= 12 /\ 1 <= dt_day t <= 31
           /\ dt_weekofyear t = iso_week (epoch_day t)
           /\ 1 <= dt_weekofyear t <= 53
           /\ 0 <= dt_weekday t < 7.
Proof.
  intros fr ee read off filepath df tr Hread Hok rows.
  destruct (process_log_file_calls _ _ _ _ _ _ _ Hread Hok)
    as [_ [results [Hlen Hcalls]]].
  fold rows in Hlen, Hcalls.
  eexists. split; [exact Hcalls |].
  rewrite !executions_app, executions_map_same.
  rewrite executions_map_other by reflexivity.
  rewrite others_songplay_calls by reflexivity.
  rewrite !app_nil_r. split; [apply length_map |]. split; [reflexivity |].
  intros row Hin. apply timestamp_decomposition.
Qed.

Lemma one_time_row_per_row_witness :
  exists calls,
    fst (process_log_file Examples.finds_harmonia Examples.accepts_all
           Examples.three_lines Examples.utc ["events.json"%string] [])
    = [] ++ calls
    /\ List.length (executions time_table_insert calls) = 2%nat
    /\ executions time_table_insert calls
       = [Execute time_table_insert
            [CTime (mk_time 1 25 34 796000); CInt 1; CInt 2; CInt 44;
             CInt 11; CInt 2018; CInt 4];
          Execute time_table_insert
            [CTime (mk_time 1 25 34 796000); CInt 1; CInt 3; CInt 44;
             CInt 11; CInt 2018; CInt 5]]
    /\ forall row, In row [Examples.play_1; Examples.play_2] ->
         let t := ts row in
         days_from_civil (dt_year t) (dt_month t) (dt_day t) * ms_per_day
         + ms_of_time (dt_time t) = t
         /\ dt_hour t = t_hour (dt_time t) /\ 0 <= dt_hour t < 24
         /\ 1 <= dt_month t <= 12 /\ 1 <= dt_day t <= 31
         /\ dt_weekofyear t = iso_week (epoch_day t)
         /\ 1 <= dt_weekofyear t <= 53
         /\ 0 <= dt_weekday t < 7.
Proof.
  apply (one_time_row_per_row
           Examples.finds_harmonia Examples.accepts_all Examples.three_lines
           Examples.utc ["events.json"%string]
           [Examples.home_1; Examples.play_1; Examples.play_2] []);
    reflexivity.
Defined.

(** *** Which rows insert *)

Lemma inserts_map_insert {A} q (f : A -> list cell) l :
  is_insert q = true ->
  filter is_insert_event (map (fun x => Execute q (f x)) l)
  = map (fun x => Execute q (f x)) l.
Proof.
  intros H. induction l as [| x l IH]; simpl; [reflexivity |].
  now rewrite H, IH.
Qed.

Lemma inserts_songplay_calls utcoffset rrs :
  filter is_insert_event (flat_map (songplay_calls utcoffset) rrs)
  = map (fun rr => Execute songplay_table_insert
                     (songplay_data utcoffset (fst rr) (snd rr))) rrs.
Proof.
  induction rrs as [| [row results] rrs IH]; [reflexivity |].
  simpl. f_equal. apply IH.
Qed.

(** C8: a log file contributes through its NextSong rows only.  Rows with
    another page add nothing: a file with the same NextSong rows gives the
    same run, and a file without any gives no call at all.  When the file is
    processed to its end, the time, users and songplays inserts are each
    issued once per NextSong row, and these are all the inserts. *)
Theorem only_NextSong_rows_insert :
  forall fetchone_result execute_error read_log_json utcoffset filepath df tr,
    read_log_json filepath = Ok df ->
    df <> [] ->
    let run := process_log_file fetchone_result execute_error read_log_json
                                utcoffset filepath tr in
    let rows := filter is_NextSong df in
    let n := List.length rows in
    (forall filepath' df',
        read_log_json filepath' = Ok df' -> df' <> [] ->
        filter is_NextSong df' = rows ->
        process_log_file fetchone_result execute_error read_log_json
                         utcoffset filepath' tr = run)
    /\ (rows = [] -> run = (tr, Ok tt))
    /\ (snd run = Ok tt ->
        exists calls,
          fst run = tr ++ calls
          /\ List.length (executions time_table_insert calls) = n
          /\ List.length (executions user_table_insert calls) = n
          /\ List.length (executions songplay_table_insert calls) = n
          /\ List.length (filter is_insert_event calls) = (3 * n)%nat).
Proof.
  intros fr ee read off filepath df tr Hread Hne run rows n.
  split; [| split].
  - intros filepath' df' Hread' Hne' Hrows. subst run.
    unfold process_log_file.
    unfold bind at 1. unfold bind at 4. unfold lift at 1. unfold lift at 3.
    rewrite Hread, Hread'.
    destruct df as [| r df]; [contradiction |].
    destruct df' as [| r' df']; [contradiction |].
    cbv zeta. rewrite Hrows. reflexivity.
  - intros Hnil. subst run. unfold process_log_file.
    unfold bind at 1, lift at 1. rewrite Hread.
    destruct df as [| r df]; [contradiction |].
    cbv zeta. fold rows. rewrite Hnil. reflexivity.
  - intros Hok.
    destruct (process_log_file_calls _ _ _ _ _ _ _ Hread Hok)
      as [_ [results [Hlen Hcalls]]].
    fold rows in Hlen, Hcalls.
    assert (Hc : List.length (combine rows results) = n)
      by (rewrite length_combine, Hlen; apply Nat.min_id).
    eexists. split; [exact Hcalls |].
    rewrite !filter_app, !inserts_map_insert by reflexivity.
    rewrite inserts_songplay_calls.
    rewrite !executions_app, !executions_map_same.
    rewrite !executions_map_other by reflexivity.
    rewrite !others_songplay_calls by reflexivity.
    rewrite songplays_songplay_calls.
    rewrite !app_nil_r. cbn [app].
    rewrite !length_app, !length_map, Hc. fold n. repeat split; lia.
Qed.

Lemma only_NextSong_rows_insert_witness :
  let run := process_log_file Examples.finds_harmonia Examples.accepts_all
               Examples.three_lines Examples.utc ["events.json"%string] [] in
  (forall filepath' df',
      Examples.three_lines filepath' = Ok df' -> df' <> [] ->
      filter is_NextSong df' = [Examples.play_1; Examples.play_2] ->
      process_log_file Examples.finds_harmonia Examples.accepts_all
        Examples.three_lines Examples.utc filepath' [] = run)
  /\ ([Examples.play_1; Examples.play_2] = [] -> run = ([], Ok tt))
  /\ (snd run = Ok tt ->
      exists calls,
        fst run = [] ++ calls
        /\ List.length (executions time_table_insert calls) = 2%nat
        /\ List.length (executions user_table_insert calls) = 2%nat
        /\ List.length (executions songplay_table_insert calls) = 2%nat
        /\ List.length (filter is_insert_event calls) = 6%nat).
Proof.
  cbv zeta.
  apply (only_NextSong_rows_insert
           Examples.finds_harmonia Examples.accepts_all Examples.three_lines
           Examples.utc ["events.json"%string]
           [Examples.home_1; Examples.play_1; Examples.play_2] []).
  - reflexivity.
  - discriminate.
Defined.

(** *** A lookup that finds nothing *)

(** C9: when the lookup of a row returns no record, the songplay insert is
    issued all the same (the database accepting it), with None for the song
    and the artist; its other parameters are those of the matching case. *)
Theorem songplay_without_match :
  forall fetchone_result execute_error utcoffset row tr,
    let select := Execute song_select [song row; artist row; length row] in
    execute_error tr song_select [song row; artist row; length row] = None ->
    fetchone_result (tr ++ [select]) = None ->
    execute_error (tr ++ [select; Fetchone None]) songplay_table_insert
                  (songplay_data utcoffset row None) = None ->
    insert_songplay fetchone_result execute_error utcoffset row tr
    = (tr ++ [select; Fetchone None;
              Execute songplay_table_insert
                [start_time utcoffset row; userId row; level row;
                 CNone; CNone;
                 sessionId row; location row; userAgent row]], Ok tt)
    /\ forall songid artistid,
         songplay_data utcoffset row (Some (songid, artistid))
         = [start_time utcoffset row; userId row; level row;
            songid; artistid;
            sessionId row; location row; userAgent row].
Proof.
  intros fr ee off row tr select Hselect Hfetch Hinsert.
  split; [| reflexivity].
  unfold insert_songplay, bind, fetchone.
  rewrite (execute_ok _ _ _ _ Hselect). fold select. rewrite Hfetch.
  replace ((tr ++ [select]) ++ [Fetchone None])
    with (tr ++ [select; Fetchone None]) by now rewrite <- app_assoc.
  rewrite (execute_ok _ _ _ _ Hinsert). now rewrite <- app_assoc.
Qed.

Lemma songplay_without_match_witness :
  insert_songplay Examples.finds_harmonia Examples.accepts_all Examples.utc
                  Examples.play_2 []
  = ([Execute song_select [song Examples.play_2; artist Examples.play_2;
                           length Examples.play_2];
      Fetchone None;
      Execute songplay_table_insert
        [start_time Examples.utc Examples.play_2; userId Examples.play_2;
         level Examples.play_2; CNone; CNone; sessionId Examples.play_2;
         location Examples.play_2; userAgent Examples.play_2]], Ok tt)
  /\ forall songid artistid,
       songplay_data Examples.utc Examples.play_2 (Some (songid, artistid))
       = [start_time Examples.utc Examples.play_2; userId Examples.play_2;
          level Examples.play_2; songid; artistid; sessionId Examples.play_2;
          location Examples.play_2; userAgent Examples.play_2].
Proof.
  apply (songplay_without_match
           Examples.finds_harmonia Examples.accepts_all Examples.utc
           Examples.play_2 []); reflexivity.
Defined.

(** *** The start time *)

Lemma string_length_append (a b : string) :
  String.length (a ++ b) = (String.length a + String.length b)%nat.
Proof. induction a as [| c a IH]; simpl; [| rewrite IH]; reflexivity. Qed.

Lemma zero_padded_length width n :
  String.length (zero_padded width n) = width.
Proof.
  revert n. induction width as [| w IH]; intros n; simpl; [reflexivity |].
  rewrite string_length_append, IH. simpl. lia.
Qed.

Lemma strftime_HMSf_length t : String.length (strftime_HMSf t) = 15%nat.
Proof.
  unfold strftime_HMSf.
  repeat rewrite string_length_append. rewrite !zero_padded_length.
  reflexivity.
Qed.

Lemma start_time_of_length utcoffset t :
  String.length (start_time_of utcoffset t) = 15%nat.
Proof.
  unfold start_time_of. destruct (timestamp_parts _) as [sec us].
  apply strftime_HMSf_length.
Qed.

Lemma dt_time_whole_days t k : dt_time (t + k * ms_per_day) = dt_time t.
Proof.
  unfold dt_time, ms_of_day. now rewrite Z.mod_add by discriminate.
Qed.

Lemma map_fst_combine_same {A B} (l : list A) (l' : list B) :
  List.length l' = List.length l -> map fst (combine l l') = l.
Proof.
  revert l'. induction l as [| x l IH]; intros [| y l'] H;
    try discriminate; [reflexivity |].
  simpl. f_equal. apply IH. now inversion H.
Qed.

Lemma dt_time_in_range t :
  let time := dt_time t in
  0 <= t_hour time < 24 /\ 0 <= t_minute time < 60
  /\ 0 <= t_second time < 60 /\ 0 <= t_microsecond time < 1000000
  /\ ms_of_time time = ms_of_day t.
Proof.
  cbv zeta.
  assert (Hr : 0 <= ms_of_day t < ms_per_day)
    by (unfold ms_of_day; apply Z.mod_pos_bound; reflexivity).
  split; [| split; [| split; [| split]]];
    try (apply ms_of_time_of_ms; exact Hr);
    unfold dt_time, time_of_ms; cbn [t_hour t_minute t_second t_microsecond];
    unfold ms_per_day in Hr; Z.to_euclidean_division_equations; lia.
Qed.

(** The local time of day of an instant given in whole milliseconds is the
    UTC time of day of the instant shifted by the offset. *)
Lemma local_time_of_ms utcoffset t :
  local_time_of_day utcoffset (t / 1000) ((t mod 1000) * 1000)
  = dt_time (t + 1000 * utcoffset (t / 1000)).
Proof.
  unfold local_time_of_day, dt_time, ms_of_day, time_of_ms, ms_per_day.
  set (o := utcoffset (t / 1000)).
  assert (Hms : (t + 1000 * o) mod 86400000
                = 1000 * ((t / 1000 + o) mod 86400) + t mod 1000).
  { Z.to_euclidean_division_equations. lia. }
  rewrite Hms. clear Hms.
  set (s := (t / 1000 + o) mod 86400).
  assert (Hs : 0 <= s < 86400)
    by (apply Z.mod_pos_bound; reflexivity).
  assert (Hr : 0 <= t mod 1000 < 1000)
    by (apply Z.mod_pos_bound; reflexivity).
  generalize dependent (t mod 1000). intros r Hr.
  f_equal; Z.to_euclidean_division_equations; lia.
Qed.

Lemma start_time_of_exact utcoffset t :
  division_is_exact t = true ->
  start_time_of utcoffset t
  = strftime_HMSf (dt_time (t + 1000 * utcoffset (t / 1000))).
Proof.
  unfold division_is_exact, start_time_of.
  destruct (timestamp_parts _) as [sec us]. intros H.
  apply andb_prop in H. destruct H as [Hsec Hus].
  apply Z.eqb_eq in Hsec, Hus. subst sec us.
  now rewrite local_time_of_ms.
Qed.

Lemma start_time_of_form utcoffset t :
  exists h m s us,
    0 <= h < 24 /\ 0 <= m < 60 /\ 0 <= s < 60
    /\ start_time_of utcoffset t
       = (zero_padded 2 h ++ ":" ++ zero_padded 2 m ++ ":"
          ++ zero_padded 2 s ++ "." ++ zero_padded 6 us)%string.
Proof.
  unfold start_time_of. destruct (timestamp_parts _) as [sec us].
  unfold strftime_HMSf, local_time_of_day.
  cbn [t_hour t_minute t_second t_microsecond].
  set (x := (sec + utcoffset sec) mod 86400).
  assert (Hx : 0 <= x < 86400) by (apply Z.mod_pos_bound; reflexivity).
  exists (x / 3600), ((x / 60) mod 60), (x mod 60), us.
  repeat split; try reflexivity;
    Z.to_euclidean_division_equations; lia.
Qed.

Lemma start_time_of_whole_days utcoffset t k :
  division_is_exact t = true ->
  division_is_exact (t + k * ms_per_day) = true ->
  utcoffset ((t + k * ms_per_day) / 1000) = utcoffset (t / 1000) ->
  start_time_of utcoffset (t + k * ms_per_day) = start_time_of utcoffset t.
Proof.
  intros Ht Htk Hoff.
  rewrite !start_time_of_exact by assumption. rewrite Hoff.
  replace (t + k * ms_per_day + 1000 * utcoffset (t / 1000))
    with (t + 1000 * utcoffset (t / 1000) + k * ms_per_day) by lia.
  now rewrite dt_time_whole_days.
Qed.



(** Two plays one day apart, on 2 and 3 November 2018: the double gives back
    both timestamps, and they have the same value in the time table and the
    same start time. *)
Example a_day_apart_same_start_time :
  dt_day (ts Examples.play_1) = 2 /\ dt_day (ts Examples.play_2) = 3
  /\ division_is_exact (ts Examples.play_1) = true
  /\ division_is_exact (ts Examples.play_2) = true
  /\ dt_time (ts Examples.play_1) = dt_time (ts Examples.play_2)
  /\ start_time_of Examples.pacific (ts Examples.play_1)
     = "17:25:34.796000"%string
  /\ start_time_of Examples.pacific (ts Examples.play_2)
     = "17:25:34.796000"%string.
Proof. repeat split; reflexivity. Qed.



(** *** The loop over the files *)

Lemma process_one_inv func datafile tr tr' :
  commit_free func ->
  process_one func datafile tr = (tr', Ok tt) ->
  exists calls,
    func datafile tr = (tr ++ calls, Ok tt) /\ no_commit calls = true /\
    tr' = tr ++ committed_block calls.
Proof.
  intros Hfree. unfold process_one, bind, commit.
  destruct (Hfree datafile tr) as [calls [Hcalls Hno]].
  destruct (func datafile tr) as [mid [[] | e]]; simpl in Hcalls; subst mid;
    intros H; inversion H.
  exists calls. unfold committed_block. now rewrite app_assoc.
Qed.

Lemma process_files_inv func files tr tr' :
  commit_free func ->
  for_each (process_one func) files tr = (tr', Ok tt) ->
  exists blocks,
    files_run func tr files blocks /\
    tr' = tr ++ flat_map committed_block blocks.
Proof.
  intros Hfree. revert tr. induction files as [| f files IH]; intros tr; simpl.
  - unfold ret. intros H. inversion H. exists [].
    split; [constructor | now rewrite app_nil_r].
  - unfold bind.
    destruct (process_one func f tr) as [mid [[] | e]] eqn:E; [| discriminate].
    intros H. destruct (process_one_inv _ _ _ _ Hfree E) as [calls [Hf [Hno Hmid]]].
    destruct (IH _ H) as [blocks [Hrun Htr]].
    exists (calls :: blocks). subst mid. split.
    + now constructor.
    + rewrite Htr. simpl. now rewrite <- app_assoc.
Qed.

Lemma files_run_for_each func tr files blocks :
  files_run func tr files blocks ->
  for_each (process_one func) files tr
  = (tr ++ flat_map committed_block blocks, Ok tt).
Proof.
  induction 1 as [tr | tr f files calls blocks Hf Hno Hrun IH]; simpl.
  - unfold ret. now rewrite app_nil_r.
  - unfold bind, process_one at 1, bind, commit. rewrite Hf.
    replace ((tr ++ calls) ++ [Commit]) with (tr ++ committed_block calls)
      by (unfold committed_block; apply app_assoc).
    rewrite IH. now rewrite <- app_assoc.
Qed.

Lemma files_run_length func tr files blocks :
  files_run func tr files blocks -> List.length blocks = List.length files.
Proof. induction 1; simpl; congruence. Qed.

Lemma files_run_no_commit func tr files blocks :
  files_run func tr files blocks ->
  List.length (filter is_commit (flat_map committed_block blocks))
  = List.length files.
Proof.
  induction 1 as [tr | tr f files calls blocks Hf Hno Hrun IH]; [reflexivity |].
  simpl. unfold committed_block at 1. rewrite !filter_app, !length_app, IH.
  assert (Hnone : filter is_commit calls = []).
  { clear - Hno. induction calls as [| e calls IHc]; [reflexivity |].
    simpl in *. apply andb_prop in Hno. destruct Hno as [He Hc].
    apply negb_true_iff in He. rewrite He. auto. }
  rewrite Hnone. reflexivity.
Qed.

Lemma ends_with_commit tr blocks :
  blocks <> [] ->
  exists before, tr ++ flat_map committed_block blocks = before ++ [Commit].
Proof.
  intros Hne. destruct (exists_last Hne) as [front [calls ->]].
  exists (tr ++ flat_map committed_block front ++ calls).
  rewrite flat_map_app. simpl. unfold committed_block at 2.
  now rewrite app_nil_r, <- !app_assoc.
Qed.

(** C3: in a run of [process_data], at the point reached once some of the
    files are processed, each of them has had its calls followed by one
    commit, issued before the next file is started; the calls of a file hold
    no commit; nothing is left uncommitted; and the run goes on from there
    with the remaining files. *)
Theorem process_data_commits_after_each_file :
  forall func cwd fs filepath done rest tr between,
    commit_free func ->
    all_files cwd fs filepath = done ++ rest ->
    for_each (process_one func) done tr = (between, Ok tt) ->
    exists blocks,
      files_run func tr done blocks
      /\ between = tr ++ flat_map committed_block blocks
      /\ List.length (filter is_commit (flat_map committed_block blocks))
         = List.length done
      /\ (done <> [] -> uncommitted between = [])
      /\ process_data cwd fs filepath func tr
         = for_each (process_one func) rest between.
Proof.
  intros func cwd fs filepath done rest tr between Hfree Hsplit Hdone.
  destruct (process_files_inv _ _ _ _ Hfree Hdone) as [blocks [Hrun ->]].
  exists blocks. split; [assumption |]. split; [reflexivity |].
  split; [exact (files_run_no_commit _ _ _ _ Hrun) |]. split.
  - intros Hne.
    assert (Hb : blocks <> []).
    { apply files_run_length in Hrun. intros ->.
      destruct done; [contradiction | discriminate]. }
    destruct (ends_with_commit tr _ Hb) as [before ->].
    apply uncommitted_commit.
  - unfold process_data. now rewrite Hsplit, for_each_app, Hdone.
Qed.

(** C4: when a file raises in a run of [process_data], the run raises the
    same exception with the trace as that file left it: the calls of the
    failing file follow the last commit and stay uncommitted, and no call is
    made for the files after it. *)
Theorem process_data_stops_at_first_error :
  forall func cwd fs filepath done failing rest tr between tr' e,
    commit_free func ->
    all_files cwd fs filepath = done ++ failing :: rest ->
    for_each (process_one func) done tr = (between, Ok tt) ->
    func failing between = (tr', Raise e) ->
    process_data cwd fs filepath func tr = (tr', Raise e)
    /\ exists calls,
         tr' = between ++ calls
         /\ no_commit calls = true
         /\ uncommitted tr' = uncommitted between ++ calls
         /\ (done <> [] -> uncommitted tr' = calls).
Proof.
  intros func cwd fs filepath done failing rest tr between tr' e
         Hfree Hsplit Hdone Hfail.
  split.
  - unfold process_data. rewrite Hsplit, for_each_app, Hdone.
    simpl. unfold bind, process_one, bind. now rewrite Hfail.
  - destruct (Hfree failing between) as [calls [Hcalls Hno]].
    rewrite Hfail in Hcalls. simpl in Hcalls.
    exists calls. split; [assumption |]. split; [assumption |].
    subst tr'. split; [now apply uncommitted_app |].
    intros Hne. rewrite uncommitted_app by assumption.
    destruct (process_files_inv _ _ _ _ Hfree Hdone) as [blocks [Hrun ->]].
    assert (Hb : blocks <> []).
    { apply files_run_length in Hrun. intros ->.
      destruct done; [contradiction | discriminate]. }
    destruct (ends_with_commit tr _ Hb) as [before ->].
    now rewrite uncommitted_commit.
Qed.

Lemma process_data_commits_after_each_file_witness :
  let func := process_song_file Examples.accepts_all Examples.one_song in
  let between := Examples.song_a_calls ++ [Commit] in
  exists blocks,
    files_run func [] [Examples.file_a] blocks
    /\ between = [] ++ flat_map committed_block blocks
    /\ List.length (filter is_commit (flat_map committed_block blocks))
       = List.length [Examples.file_a]
    /\ ([Examples.file_a] <> [] -> uncommitted between = [])
    /\ process_data Examples.home Examples.three_song_files
                    ["data"; "song_data"]%string func []
       = for_each (process_one func) [Examples.file_b; Examples.file_c] between.
Proof.
  cbv zeta.
  apply (process_data_commits_after_each_file
           (process_song_file Examples.accepts_all Examples.one_song)
           Examples.home Examples.three_song_files
           ["data"; "song_data"]%string
           [Examples.file_a] [Examples.file_b; Examples.file_c] []
           (Examples.song_a_calls ++ [Commit])).
  - apply process_song_file_commit_free.
  - reflexivity.
  - reflexivity.
Defined.

Lemma process_data_stops_at_first_error_witness :
  let func := process_song_file Examples.rejects_later_artists
                                Examples.one_song in
  let between := Examples.song_a_calls ++ [Commit] in
  let tr' := between ++ [Execute song_table_insert (song_data Examples.song_a)] in
  process_data Examples.home Examples.three_song_files
               ["data"; "song_data"]%string func []
  = (tr', Raise DatabaseError)
  /\ exists calls,
       tr' = between ++ calls
       /\ no_commit calls = true
       /\ uncommitted tr' = uncommitted between ++ calls
       /\ ([Examples.file_a] <> [] -> uncommitted tr' = calls).
Proof.
  cbv zeta.
  apply (process_data_stops_at_first_error
           (process_song_file Examples.rejects_later_artists Examples.one_song)
           Examples.home Examples.three_song_files
           ["data"; "song_data"]%string
           [Examples.file_a] Examples.file_b [Examples.file_c] []
           (Examples.song_a_calls ++ [Commit])).
  - apply process_song_file_commit_free.
  - reflexivity.
  - reflexivity.
  - reflexivity.
Defined.

(** *** The files [process_data] finds *)

Lemma entry_induction (P : entry -> Prop) :
  (forall n, P (File n)) ->
  (forall n sub, Forall P sub -> P (Dir n sub)) ->
  forall e, P e.
Proof.
  intros Hfile Hdir. fix IH 1. intros [n | n sub].
  - apply Hfile.
  - apply Hdir. induction sub as [| e sub IHsub]; constructor.
    + apply IH.
    + apply IHsub.
Qed.

(** *** What ['*.json'] matches *)

Lemma substring_whole s : substring 0 (String.length s) s = s.
Proof. induction s as [| c s IH]; simpl; [| rewrite IH]; reflexivity. Qed.

Lemma ends_with_suffix suffix s :
  ends_with suffix s = true <-> exists p, s = (p ++ suffix)%string.
Proof.
  unfold ends_with. split.
  - induction s as [| c s IH]; intros H; apply andb_prop in H;
      destruct H as [Hle Heq]; apply Nat.leb_le in Hle;
      apply String.eqb_eq in Heq.
    + exists EmptyString. simpl in *.
      destruct suffix; [reflexivity | simpl in Hle; lia].
    + destruct (Nat.eq_dec (String.length (String c s)) (String.length suffix))
        as [E | E].
      * exists EmptyString. rewrite E, Nat.sub_diag in Heq.
        rewrite <- E, substring_whole in Heq. now rewrite Heq.
      * simpl in E, Hle.
        assert (Hle' : (String.length suffix <= String.length s)%nat) by lia.
        replace (String.length (String c s) - String.length suffix)%nat
          with (S (String.length s - String.length suffix)) in Heq
          by (cbn [String.length]; lia).
        simpl in Heq. destruct IH as [p ->].
        { apply andb_true_intro. split; [now apply Nat.leb_le |].
          now apply String.eqb_eq. }
        now exists (String c p).
  - intros [p ->]. induction p as [| c p IH].
    + simpl. rewrite Nat.leb_refl, Nat.sub_diag, substring_whole.
      apply String.eqb_refl.
    + apply andb_prop in IH. destruct IH as [Hle Heq].
      apply Nat.leb_le in Hle. apply andb_true_intro. split.
      * apply Nat.leb_le. simpl. lia.
      * replace (String.length (String c p ++ suffix) - String.length suffix)%nat
          with (S (String.length (p ++ suffix) - String.length suffix))
          by (cbn [String.length append]; lia).
        exact Heq.
Qed.

Lemma list_ascii_of_string_app (a b : string) :
  list_ascii_of_string (a ++ b)
  = list_ascii_of_string a ++ list_ascii_of_string b.
Proof. induction a as [| c a IH]; simpl; [| rewrite IH]; reflexivity. Qed.

Lemma match_literals lits s :
  match_items (map Literal lits) s = true <-> s = lits.
Proof.
  revert s. induction lits as [| c lits IH]; intros [| c' s]; simpl;
    try (split; [discriminate | discriminate]); [tauto |].
  rewrite andb_true_iff, IH, Ascii.eqb_eq. split.
  - intros [-> ->]. reflexivity.
  - intros H. inversion H. auto.
Qed.

Lemma match_star_literals lits s :
  match_items (Star :: map Literal lits) s = true <->
  exists p, s = p ++ lits.
Proof.
  cbn [match_items]. induction s as [| c s IH].
  - rewrite orb_false_r, match_literals. split.
    + intros <-. now exists [].
    + intros [p H]. symmetry in H. apply app_eq_nil in H. now destruct H.
  - rewrite orb_true_iff, match_literals, IH. split.
    + intros [<- | [p ->]]; [now exists [] | now exists (c :: p)].
    + intros [[| c' p] H]; [left; now rewrite H | right].
      inversion H. now exists p.
Qed.

Lemma fnmatch_json name : fnmatch "*.json" name = ends_with ".json" name.
Proof.
  apply eq_true_iff_eq. rewrite ends_with_suffix.
  change (fnmatch "*.json" name)
    with (match_items (Star :: map Literal (list_ascii_of_string ".json"))
                      (list_ascii_of_string name)).
  rewrite match_star_literals. split.
  - intros [p H]. exists (string_of_list_ascii p).
    rewrite <- (string_of_list_ascii_of_string name), H.
    rewrite <- (list_ascii_of_string_of_list_ascii p) at 1.
    rewrite <- list_ascii_of_string_app.
    now rewrite string_of_list_ascii_of_string.
  - intros [p ->]. exists (list_ascii_of_string p).
    apply list_ascii_of_string_app.
Qed.

Lemma glob1_json entries :
  glob1 entries "*.json" false
  = map entry_name (filter (fun e => glob_match (entry_name e)) entries).
Proof.
  unfold glob1. cbn [is_hidden negb orb].
  induction entries as [| e entries IH]; [reflexivity |].
  cbn [filter map]. unfold glob_match at 1.
  destruct (is_hidden (entry_name e)); cbn [negb andb filter].
  - exact IH.
  - rewrite fnmatch_json. destruct (ends_with ".json" (entry_name e));
      cbn [map]; [f_equal |]; exact IH.
Qed.

(** *** Directory names without metacharacter *)

Lemma glob_json_plain fs root :
  has_magic root = false ->
  glob_json fs root = json_in root (listing_at fs root).
Proof.
  intros H. unfold glob_json, json_in. rewrite H. cbn [flat_map].
  rewrite app_nil_r, glob1_json, map_map. reflexivity.
Qed.

Lemma listing_at_app fs p q :
  listing_at fs (p ++ q) = listing_at (listing_at fs p) q.
Proof.
  revert fs. induction p as [| n p IH]; intros fs; [reflexivity |].
  cbn [app listing_at].
  induction fs as [| [m | m sub] fs IHfs].
  - now destruct q.
  - exact IHfs.
  - destruct (String.eqb n m); [apply IH | exact IHfs].
Qed.

Lemma listing_at_dir entries n sub :
  distinct (map entry_name entries) = true ->
  In (Dir n sub) entries ->
  listing_at entries [n] = sub.
Proof.
  induction entries as [| e entries IH]; intros Hd Hin; [contradiction |].
  cbn [map distinct] in Hd. apply andb_prop in Hd. destruct Hd as [Hn Hd].
  apply negb_true_iff in Hn.
  destruct Hin as [-> | Hin].
  - cbn [listing_at]. now rewrite String.eqb_refl.
  - assert (Hne : String.eqb (entry_name e) n = false).
    { destruct (String.eqb (entry_name e) n) eqn:E; [| reflexivity].
      apply String.eqb_eq in E.
      assert (Hex : existsb (String.eqb (entry_name e))
                            (map entry_name entries) = true).
      { apply existsb_exists. exists n. split.
        - change n with (entry_name (Dir n sub)). now apply in_map.
        - now apply String.eqb_eq. }
      congruence. }
    specialize (IH Hd Hin). cbn [listing_at] in *.
    destruct e as [m | m sub']; [exact IH |].
    cbn [entry_name] in Hne. rewrite String.eqb_sym, Hne. exact IH.
Qed.

Lemma flat_map_same {A B} (f g : A -> list B) l :
  (forall x, In x l -> f x = g x) -> flat_map f l = flat_map g l.
Proof.
  induction l as [| x l IH]; intros H; [reflexivity |].
  cbn [flat_map]. rewrite (H x) by now left.
  rewrite IH; [reflexivity |]. intros y Hy. apply H. now right.
Qed.

Lemma has_magic_app p q : has_magic (p ++ q) = has_magic p || has_magic q.
Proof. apply existsb_app. Qed.

Lemma walk_sub_plain fs e :
  forall root,
    has_magic root = false ->
    distinct (map entry_name (listing_at fs root)) = true ->
    In e (listing_at fs root) ->
    tree_ok e = true -> plain_names e = true ->
    walk_sub fs root e = json_below root e.
Proof.
  induction e as [n | n sub IH] using entry_induction;
    intros root Hroot Hd Hin Hok Hplain; [reflexivity |].
  cbn [walk_sub json_below].
  cbn [tree_ok] in Hok. apply andb_prop in Hok. destruct Hok as [Hds Hoks].
  cbn [plain_names] in Hplain. apply andb_prop in Hplain.
  destruct Hplain as [Hn Hplains]. apply negb_true_iff in Hn.
  assert (Hroot' : has_magic (root ++ [n]) = false).
  { rewrite has_magic_app, Hroot. cbn. now rewrite Hn. }
  assert (Hsub : listing_at fs (root ++ [n]) = sub).
  { rewrite listing_at_app. now apply listing_at_dir. }
  rewrite glob_json_plain, Hsub by assumption. f_equal.
  rewrite forallb_forall in Hoks, Hplains. rewrite Forall_forall in IH.
  apply flat_map_same. intros e He.
  apply IH; auto; rewrite Hsub; auto.
Qed.

Lemma isdir_false_listing fs p : isdir fs p = false -> listing_at fs p = [].
Proof.
  revert fs. induction p as [| n p IH]; intros fs; [discriminate |].
  cbn [isdir listing_at].
  induction fs as [| [m | m sub] fs IHfs]; auto.
  destruct (String.eqb n m); auto.
Qed.

Lemma walk_glob_plain fs root :
  has_magic root = false ->
  listing_ok (listing_at fs root) = true ->
  forallb plain_names (listing_at fs root) = true ->
  walk_glob fs root (listing_at fs root)
  = json_under root (listing_at fs root).
Proof.
  intros Hroot Hok Hplain. unfold listing_ok in Hok.
  apply andb_prop in Hok. destruct Hok as [Hd Hoks].
  unfold walk_glob, json_under. rewrite glob_json_plain by assumption.
  f_equal. rewrite forallb_forall in Hoks, Hplain.
  apply flat_map_same. intros e He. apply walk_sub_plain; auto.
Qed.

(** *** The entries that match *)

Lemma json_in_listed root entries p :
  In p (json_in root entries) <->
  exists e, In e entries /\ glob_match (entry_name e) = true /\
            p = root ++ [entry_name e].
Proof.
  unfold json_in. rewrite in_map_iff. split.
  - intros [e [Hp He]]. apply filter_In in He. destruct He as [Hin Hm].
    exists e. auto.
  - intros [e [Hin [Hm Hp]]]. exists e. split; [auto |].
    apply filter_In. auto.
Qed.

Lemma json_below_listed e :
  forall root p,
    In p (json_below root e) ->
    exists n sub d e',
      e = Dir n sub /\ listed (root ++ [n]) sub d e' /\
      glob_match (entry_name e') = true /\ p = d ++ [entry_name e'].
Proof.
  induction e as [n | n sub IH] using entry_induction; intros root p Hin.
  - contradiction.
  - exists n, sub. cbn [json_below] in Hin. apply in_app_or in Hin.
    destruct Hin as [Hin | Hin].
    + apply json_in_listed in Hin. destruct Hin as [e' [He' [Hm Hp]]].
      exists (root ++ [n]), e'. repeat split; auto. now constructor.
    + apply in_flat_map in Hin. destruct Hin as [x [Hx Hp]].
      rewrite Forall_forall in IH.
      destruct (IH x Hx _ _ Hp) as [n' [sub' [d [e' [-> [Hl [Hm Hpe]]]]]]].
      exists d, e'. repeat split; auto.
      now apply (listed_below _ _ n' sub').
Qed.

Lemma json_under_listed root entries p :
  In p (json_under root entries) <->
  exists d e, listed root entries d e /\
              glob_match (entry_name e) = true /\ p = d ++ [entry_name e].
Proof.
  split.
  - unfold json_under. intros Hin. apply in_app_or in Hin.
    destruct Hin as [Hin | Hin].
    + apply json_in_listed in Hin. destruct Hin as [e [He [Hm Hp]]].
      exists root, e. repeat split; auto. now constructor.
    + apply in_flat_map in Hin. destruct Hin as [x [Hx Hp]].
      destruct (json_below_listed _ _ _ Hp)
        as [n [sub [d [e [-> [Hl [Hm Hpe]]]]]]].
      exists d, e. repeat split; auto.
      now apply (listed_below _ _ n sub).
  - intros [d [e [Hl [Hm ->]]]].
    induction Hl as [root entries e He | root entries n sub d e Hd Hl IH].
    + unfold json_under. apply in_or_app. left.
      apply json_in_listed. now exists e.
    + unfold json_under. apply in_or_app. right.
      apply in_flat_map. exists (Dir n sub). split; [assumption |].
      exact (IH Hm).
Qed.

(** *** The files that are not found *)

(** C7: the docstring of [process_data] says that it collects all the json
    files under the directory given, and the run is the composition of that
    discovery with the processing of each file.  On a tree that holds a
    hidden .json file the program breaks this: the file is under the root and
    its name ends in .json, yet [process_data] does not find it and [main]
    issues one song insert for two song files. *)
Lemma hidden_json_file_is_not_found :
  let root := ["data"; "song_data"]%string in
  let d := ["data"; "song_data"; "A"]%string in
  let name := ".TRAAABD128F429CF47.json"%string in
  listed root (listing_at Examples.tree root) d (File name)
  /\ ends_with ".json" name = true
  /\ ~ In (Examples.home ++ d ++ [name])
          (all_files Examples.home Examples.tree root)
  /\ all_files Examples.home Examples.tree root
     = [Examples.home ++ d ++ ["TRAAAAW128F429D538.json"%string]]
  /\ List.length
       (executions song_table_insert
          (fst (main Examples.finds_harmonia Examples.accepts_all
                  Examples.one_song Examples.three_lines Examples.pacific
                  Examples.home Examples.tree []))) = 1%nat.
Proof.
  cbv zeta. split; [| split; [| split; [| split]]].
  - apply (listed_below _ _ "A"%string
             [File "TRAAAAW128F429D538.json"; File ".TRAAABD128F429CF47.json"]%string).
    + simpl. auto.
    + apply listed_here. simpl. auto.
  - reflexivity.
  - vm_compute. intros [H | []]. discriminate H.
  - reflexivity.
  - reflexivity.
Qed.

(** A directory whose name holds a set of characters is read by [glob] as a
    pattern: in a tree with the song files [[ab]/p.json] and [a/q.json], the
    first is never found and the second is found twice, once for each of the
    two directories of the walk. *)
Example directory_name_read_as_pattern :
  let root := ["data"; "song_data"]%string in
  listing_ok Examples.bracket_tree = true
  /\ listed root (listing_at Examples.bracket_tree root)
            ["data"; "song_data"; "[ab]"]%string (File "p.json")
  /\ all_files Examples.home Examples.bracket_tree root
     = [Examples.home ++ ["data"; "song_data"; "a"; "q.json"]%string;
        Examples.home ++ ["data"; "song_data"; "a"; "q.json"]%string].
Proof.
  cbv zeta. split; [reflexivity | split; [| reflexivity]].
  apply (listed_below _ _ "[ab]"%string [File "p.json"]).
  - simpl. auto.
  - apply listed_here. simpl. auto.
Qed.

(** ** Further properties of the procedures *)

(** *** The outcomes of process_song_file *)

(** X1: whatever the file and the database do, [process_song_file] adds no
    call, the song insert alone, or the song insert followed by the artist
    insert, and it returns in the last case only: an artist is never inserted
    without its song.  A file that cannot be read or holds no record adds no
    call. *)
Theorem song_file_never_inserts_artist_alone :
  forall execute_error read_song_json filepath tr,
    let run := process_song_file execute_error read_song_json filepath tr in
    (exists calls,
        fst run = tr ++ calls
        /\ ((snd run = Ok tt
             /\ exists first others,
                 read_song_json filepath = Ok (first :: others)
                 /\ calls = [Execute song_table_insert (song_data first);
                             Execute artist_table_insert (artist_data first)])
            \/ (exists e,
                   snd run = Raise e
                   /\ (calls = []
                       \/ exists first others,
                           read_song_json filepath = Ok (first :: others)
                           /\ calls = [Execute song_table_insert
                                         (song_data first)]))))
    /\ (forall e, read_song_json filepath = Raise e -> run = (tr, Raise e))
    /\ (read_song_json filepath = Ok [] -> run = (tr, Raise KeyError)).
Proof.
  intros ee read filepath tr run. subst run.
  unfold process_song_file, bind, lift.
  destruct (read filepath) as [[| first others] | e] eqn:Hread.
  - split; [| split; [discriminate | reflexivity]].
    exists []. rewrite app_nil_r. split; [reflexivity |].
    right. exists KeyError. auto.
  - split; [| split; discriminate].
    unfold execute.
    destruct (ee tr song_table_insert (song_data first)) as [e1 |].
    + exists []. rewrite app_nil_r. split; [reflexivity |].
      right. exists e1. auto.
    + destruct (ee (tr ++ [Execute song_table_insert (song_data first)])
                   artist_table_insert (artist_data first)) as [e2 |].
      * exists [Execute song_table_insert (song_data first)].
        split; [reflexivity |]. right. exists e2. split; [reflexivity |].
        right. exists first, others. auto.
      * exists [Execute song_table_insert (song_data first);
                Execute artist_table_insert (artist_data first)].
        split; [simpl; now rewrite <- app_assoc |].
        left. split; [reflexivity |]. exists first, others. auto.
  - split; [| split; [| discriminate]].
    + exists []. rewrite app_nil_r. split; [reflexivity |].
      right. exists e. auto.
    + intros e' He'. now inversion He'.
Qed.

Lemma song_file_never_inserts_artist_alone_witness :
  let run := process_song_file Examples.rejects_later_artists
               Examples.one_song ["a.json"%string]
               (Examples.song_a_calls ++ [Commit]) in
  (exists calls,
      fst run = (Examples.song_a_calls ++ [Commit]) ++ calls
      /\ ((snd run = Ok tt
           /\ exists first others,
               Examples.one_song ["a.json"%string] = Ok (first :: others)
               /\ calls = [Execute song_table_insert (song_data first);
                           Execute artist_table_insert (artist_data first)])
          \/ (exists e,
                 snd run = Raise e
                 /\ (calls = []
                     \/ exists first others,
                         Examples.one_song ["a.json"%string]
                         = Ok (first :: others)
                         /\ calls = [Execute song_table_insert
                                       (song_data first)]))))
  /\ (forall e, Examples.one_song ["a.json"%string] = Raise e ->
                run = (Examples.song_a_calls ++ [Commit], Raise e))
  /\ (Examples.one_song ["a.json"%string] = Ok [] ->
      run = (Examples.song_a_calls ++ [Commit], Raise KeyError)).
Proof.
  exact (song_file_never_inserts_artist_alone
           Examples.rejects_later_artists Examples.one_song
           ["a.json"%string] (Examples.song_a_calls ++ [Commit])).
Defined.

(** *** The users table *)

(** X2: in a log file that is processed to its end, one user-table insert is
    issued per NextSong row, in the order of the rows, with the parameters
    (userId, firstName, lastName, gender, level); all of them come after the
    time inserts of the file and before its first song lookup. *)
Theorem one_user_row_per_row :
  forall fetchone_result execute_error read_log_json utcoffset filepath df tr,
    read_log_json filepath = Ok df ->
    snd (process_log_file fetchone_result execute_error read_log_json
                          utcoffset filepath tr) = Ok tt ->
    let rows := filter is_NextSong df in
    let users :=
      map (fun row => Execute user_table_insert
                        [userId row; firstName row; lastName row;
                         gender row; level row]) rows in
    exists before after,
      fst (process_log_file fetchone_result execute_error read_log_json
                            utcoffset filepath tr)
      = tr ++ before ++ users ++ after
      /\ List.length users = List.length rows
      /\ forallb (is_execute_of time_table_insert) before = true
      /\ executions time_table_insert after = []
      /\ executions user_table_insert (before ++ after) = [].
Proof.
  intros fr ee read off filepath df tr Hread Hok rows users.
  destruct (process_log_file_calls _ _ _ _ _ _ _ Hread Hok)
    as [_ [results [Hlen Hcalls]]].
  fold rows in Hlen, Hcalls.
  eexists _, _. split; [exact Hcalls |].
  split; [apply length_map |]. split; [| split].
  - clear. induction rows as [| row rows IH]; simpl; auto.
  - now apply others_songplay_calls.
  - rewrite executions_app, executions_map_other by reflexivity.
    now apply others_songplay_calls.
Qed.

Lemma one_user_row_per_row_witness :
  exists before after,
    fst (process_log_file Examples.finds_harmonia Examples.accepts_all
           Examples.three_lines Examples.utc ["events.json"%string] [])
    = [] ++ before
         ++ map (fun row => Execute user_table_insert
                              [userId row; firstName row; lastName row;
                               gender row; level row])
                [Examples.play_1; Examples.play_2]
         ++ after
    /\ List.length
         (map (fun row => Execute user_table_insert
                            [userId row; firstName row; lastName row;
                             gender row; level row])
              [Examples.play_1; Examples.play_2]) = 2%nat
    /\ forallb (is_execute_of time_table_insert) before = true
    /\ executions time_table_insert after = []
    /\ executions user_table_insert (before ++ after) = [].
Proof.
  apply (one_user_row_per_row
           Examples.finds_harmonia Examples.accepts_all Examples.three_lines
           Examples.utc ["events.json"%string]
           [Examples.home_1; Examples.play_1; Examples.play_2] []);
    reflexivity.
Defined.

Lemma app_cons_split {A} (p s l1 l2 : list A) (e : A) :
  l1 ++ e :: l2 = p ++ s -> ~ In e p ->
  exists s1, l1 = p ++ s1 /\ s = s1 ++ e :: l2.
Proof.
  revert l1. induction p as [| x p IH]; intros l1 H Hnot.
  - exists l1. auto.
  - destruct l1 as [| y l1]; simpl in H; inversion H; subst.
    + exfalso. apply Hnot. now left.
    + destruct (IH l1 H2) as [s1 [-> ->]].
      * intros Hin. apply Hnot. now right.
      * exists s1. auto.
Qed.

(** X3: in a log file that is processed to its end, every songplay insert
    carries the userId and the level of a NextSong row whose time insert and
    user insert were issued before it in the same file. *)
Theorem songplay_follows_its_user_and_time :
  forall fetchone_result execute_error read_log_json utcoffset filepath df tr
         before params after,
    read_log_json filepath = Ok df ->
    snd (process_log_file fetchone_result execute_error read_log_json
                          utcoffset filepath tr) = Ok tt ->
    fst (process_log_file fetchone_result execute_error read_log_json
                          utcoffset filepath tr)
    = tr ++ before ++ Execute songplay_table_insert params :: after ->
    exists row,
      In row df /\ is_NextSong row = true
      /\ nth 1 params CNone = userId row
      /\ nth 2 params CNone = level row
      /\ In (Execute user_table_insert
               [userId row; firstName row; lastName row; gender row;
                level row]) before
      /\ In (Execute time_table_insert (time_data (ts row))) before.
Proof.
  intros fr ee read off filepath df tr before params after Hread Hok Hsplit.
  destruct (process_log_file_calls _ _ _ _ _ _ _ Hread Hok)
    as [_ [results [Hlen Hcalls]]].
  rewrite Hcalls in Hsplit. apply app_inv_head in Hsplit.
  set (rows := filter is_NextSong df) in *.
  rewrite app_assoc in Hsplit. symmetry in Hsplit.
  destruct (app_cons_split _ _ _ _ _ Hsplit) as [s1 [Hbefore Hs]].
  { intros Hin. apply in_app_or in Hin.
    destruct Hin as [Hin | Hin]; apply in_map_iff in Hin;
      destruct Hin as [row [Hrow _]]; discriminate. }
  assert (Hin : In (Execute songplay_table_insert params)
                   (flat_map (songplay_calls off) (combine rows results)))
    by (rewrite Hs; apply in_or_app; right; now left).
  apply in_flat_map in Hin. destruct Hin as [[row r] [Hrr He]].
  assert (Hrow : In row rows) by exact (in_combine_l _ _ _ _ Hrr).
  simpl in He. destruct He as [He | [He | [He | []]]]; try discriminate.
  inversion He; subst params.
  exists row. unfold rows in Hrow. apply filter_In in Hrow.
  destruct Hrow as [Hdf Hnext].
  assert (Hrows : In row rows) by (apply filter_In; auto).
  split; [assumption |]. split; [assumption |].
  split; [destruct r as [[songid artistid] |]; reflexivity |].
  split; [destruct r as [[songid artistid] |]; reflexivity |].
  rewrite Hbefore. split.
  - apply in_or_app. left. apply in_or_app. right.
    apply (in_map (fun row => Execute user_table_insert (user_data row))
             _ _ Hrows).
  - apply in_or_app. left. apply in_or_app. left.
    apply (in_map (fun row => Execute time_table_insert (time_data (ts row)))
             _ _ Hrows).
Qed.

Lemma songplay_follows_its_user_and_time_witness :
  exists row,
    In row [Examples.home_1; Examples.play_1; Examples.play_2]
    /\ is_NextSong row = true
    /\ nth 1 (songplay_data Examples.utc Examples.play_2 None) CNone
       = userId row
    /\ nth 2 (songplay_data Examples.utc Examples.play_2 None) CNone
       = level row
    /\ In (Execute user_table_insert
             [userId row; firstName row; lastName row; gender row; level row])
          (map (fun row => Execute time_table_insert (time_data (ts row)))
               [Examples.play_1; Examples.play_2]
           ++ map (fun row => Execute user_table_insert (user_data row))
                  [Examples.play_1; Examples.play_2]
           ++ songplay_calls Examples.utc
                (Examples.play_1,
                 Some (CStr "SOZCTXZ12AB0182364", CStr "AR5KOSW1187FB35FF4"))
           ++ [Execute song_select
                 [song Examples.play_2; artist Examples.play_2;
                  length Examples.play_2];
               Fetchone None])
    /\ In (Execute time_table_insert (time_data (ts row)))
          (map (fun row => Execute time_table_insert (time_data (ts row)))
               [Examples.play_1; Examples.play_2]
           ++ map (fun row => Execute user_table_insert (user_data row))
                  [Examples.play_1; Examples.play_2]
           ++ songplay_calls Examples.utc
                (Examples.play_1,
                 Some (CStr "SOZCTXZ12AB0182364", CStr "AR5KOSW1187FB35FF4"))
           ++ [Execute song_select
                 [song Examples.play_2; artist Examples.play_2;
                  length Examples.play_2];
               Fetchone None]).
Proof.
  apply (songplay_follows_its_user_and_time
           Examples.finds_harmonia Examples.accepts_all Examples.three_lines
           Examples.utc ["events.json"%string]
           [Examples.home_1; Examples.play_1; Examples.play_2] []
           _ _ []); reflexivity.
Defined.

(** *** What stops a log file before its first insert *)

(** X4: when the [ts] column holds int64 values other than the minimum, one
    NextSong row whose timestamp is out of the range of [pd.to_datetime]
    makes [process_log_file] raise before it issues any call: nothing is
    inserted for the rows in range either. *)
Theorem log_file_checks_before_inserting :
  forall fetchone_result execute_error read_log_json utcoffset filepath df tr
         row,
    read_log_json filepath = Ok df ->
    forallb (fun r => is_int64_time (ts r)) df = true ->
    In row df -> is_NextSong row = true ->
    in_datetime_bounds (ts row) = false ->
    process_log_file fetchone_result execute_error read_log_json utcoffset
                     filepath tr
    = (tr, Raise OutOfBoundsDatetime).
Proof.
  intros fr ee read off filepath df tr row Hread _ Hin Hnext Hbad.
  unfold process_log_file. unfold bind at 1, lift at 1. rewrite Hread.
  destruct df as [| r df]; [contradiction |].
  cbv zeta. unfold bind at 1, lift, to_datetime.
  assert (Hb : forallb in_datetime_bounds
                 (map ts (filter is_NextSong (r :: df))) = false).
  { destruct (forallb _ _) eqn:E; [| reflexivity].
    rewrite forallb_forall in E.
    assert (Hts : In (ts row) (map ts (filter is_NextSong (r :: df))))
      by (apply in_map, filter_In; auto).
    apply E in Hts. congruence. }
  now rewrite Hb.
Qed.

Lemma log_file_checks_before_inserting_witness :
  process_log_file Examples.finds_harmonia Examples.accepts_all
                   Examples.late_lines Examples.utc ["events.json"%string] []
  = ([], Raise OutOfBoundsDatetime).
Proof.
  apply (log_file_checks_before_inserting
           Examples.finds_harmonia Examples.accepts_all Examples.late_lines
           Examples.utc ["events.json"%string]
           [Examples.play_1; Examples.play_2262] [] Examples.play_2262);
    try reflexivity.
  simpl. auto.
Defined.

(** *** Calls of one kind only *)

Lemma adds_only_weaken {A} (allowed allowed' : event -> bool) (m : M A) :
  (forall e, allowed e = true -> allowed' e = true) ->
  adds_only allowed m -> adds_only allowed' m.
Proof.
  intros Hsub Hm tr. destruct (Hm tr) as [calls [Hcalls Hall]].
  exists calls. split; [assumption |].
  rewrite forallb_forall in *. auto.
Qed.

Lemma adds_only_nothing {A} allowed (m : M A) :
  (forall tr, fst (m tr) = tr) -> adds_only allowed m.
Proof. intros H tr. exists []. now rewrite app_nil_r, H. Qed.

Lemma adds_only_bind {A B} allowed (m : M A) (k : A -> M B) :
  adds_only allowed m -> (forall a, adds_only allowed (k a)) ->
  adds_only allowed (bind m k).
Proof.
  intros Hm Hk tr. destruct (Hm tr) as [c1 [E1 N1]]. unfold bind.
  destruct (m tr) as [mid [a | e]]; simpl in E1; subst mid.
  - destruct (Hk a (tr ++ c1)) as [c2 [E2 N2]].
    exists (c1 ++ c2). rewrite E2, app_assoc, forallb_app, N1, N2. auto.
  - now exists c1.
Qed.

Lemma adds_only_execute allowed execute_error q params :
  allowed (Execute q params) = true ->
  adds_only allowed (execute execute_error q params).
Proof.
  intros Hallowed tr. unfold execute. destruct (execute_error tr q params).
  - exists []. now rewrite app_nil_r.
  - exists [Execute q params]. simpl. now rewrite Hallowed.
Qed.

Lemma adds_only_fetchone allowed fetchone_result :
  (forall r, allowed (Fetchone r) = true) ->
  adds_only allowed (fetchone fetchone_result).
Proof.
  intros Hallowed tr. exists [Fetchone (fetchone_result tr)].
  simpl. now rewrite Hallowed.
Qed.

Lemma adds_only_for_each {A} allowed (body : A -> M unit) l :
  (forall x, adds_only allowed (body x)) ->
  adds_only allowed (for_each body l).
Proof.
  intros Hbody. induction l as [| x l IH]; simpl.
  - now apply adds_only_nothing.
  - apply adds_only_bind; auto.
Qed.

Lemma process_song_file_cursor_only execute_error read_song_json filepath :
  adds_only is_cursor_call
            (process_song_file execute_error read_song_json filepath).
Proof.
  unfold process_song_file.
  apply adds_only_bind; [now apply adds_only_nothing |].
  intros [| first others]; [now apply adds_only_nothing |].
  apply adds_only_bind; [now apply adds_only_execute |].
  intros _. now apply adds_only_execute.
Qed.

Lemma insert_songplay_cursor_only fetchone_result execute_error utcoffset row :
  adds_only is_cursor_call
            (insert_songplay fetchone_result execute_error utcoffset row).
Proof.
  unfold insert_songplay.
  apply adds_only_bind; [now apply adds_only_execute |]. intros _.
  apply adds_only_bind; [now apply adds_only_fetchone |]. intros r.
  now apply adds_only_execute.
Qed.

Lemma process_log_file_cursor_only
      fetchone_result execute_error read_log_json utcoffset filepath :
  adds_only is_cursor_call
            (process_log_file fetchone_result execute_error read_log_json
                              utcoffset filepath).
Proof.
  unfold process_log_file.
  apply adds_only_bind; [now apply adds_only_nothing |].
  intros [| row rows]; [now apply adds_only_nothing |].
  apply adds_only_bind; [now apply adds_only_nothing |]. intros t.
  apply adds_only_bind.
  { apply adds_only_for_each. intros x. now apply adds_only_execute. }
  intros _. apply adds_only_bind.
  { apply adds_only_for_each. intros x. now apply adds_only_execute. }
  intros _. apply adds_only_for_each. intros x.
  apply insert_songplay_cursor_only.
Qed.

(** X6: the procedures that process one file only execute statements and
    fetch rows: whether they return or raise, they add calls to the cursor
    and never commit and never close the connection. *)
Theorem file_procedures_use_the_cursor_only :
  forall fetchone_result execute_error read_song_json read_log_json utcoffset
         filepath tr,
    (exists calls,
        fst (process_song_file execute_error read_song_json filepath tr)
        = tr ++ calls
        /\ forallb is_cursor_call calls = true
        /\ filter is_commit calls = [] /\ filter is_close calls = [])
    /\ (exists calls,
           fst (process_log_file fetchone_result execute_error read_log_json
                                 utcoffset filepath tr)
           = tr ++ calls
           /\ forallb is_cursor_call calls = true
           /\ filter is_commit calls = [] /\ filter is_close calls = []).
Proof.
  intros fr ee read_song read_log off filepath tr.
  assert (Hnone : forall calls,
             forallb is_cursor_call calls = true ->
             filter is_commit calls = [] /\ filter is_close calls = []).
  { induction calls as [| c calls IH]; [auto |].
    simpl. intros H. apply andb_prop in H. destruct H as [Hc Hrest].
    destruct (IH Hrest) as [H1 H2].
    destruct c; try discriminate; simpl; auto. }
  split.
  - destruct (process_song_file_cursor_only ee read_song filepath tr)
      as [calls [Hcalls Hall]].
    exists calls. destruct (Hnone calls Hall). auto.
  - destruct (process_log_file_cursor_only fr ee read_log off filepath tr)
      as [calls [Hcalls Hall]].
    exists calls. destruct (Hnone calls Hall). auto.
Qed.

(** *** A database error cuts the run short *)

Lemma cut_short_refl {A} (m : M A) : cut_short m m.
Proof. intros tr. now left. Qed.

Lemma cut_short_bind {A B} (m full : M A) (k kfull : A -> M B) :
  cut_short m full ->
  (forall a, cut_short (k a) (kfull a)) ->
  (forall a, adds_only (fun _ => true) (kfull a)) ->
  cut_short (bind m k) (bind full kfull).
Proof.
  intros Hm Hk Hadds tr. unfold bind.
  destruct (Hm tr) as [Heq | [e [more [Hraise Hmore]]]].
  - rewrite Heq. destruct (full tr) as [mid [a | e]]; [apply Hk | now left].
  - right. destruct (m tr) as [t r]. simpl in Hraise, Hmore. subst r.
    exists e. destruct (full tr) as [mid [a | e']]; simpl in Hmore; subst mid.
    + destruct (Hadds a (t ++ more)) as [calls [Hcalls _]].
      exists (more ++ calls). simpl. rewrite Hcalls.
      now rewrite app_assoc.
    + exists more. auto.
Qed.

Lemma cut_short_execute execute_error q params :
  cut_short (execute execute_error q params) (execute never_raises q params).
Proof.
  intros tr. unfold execute, never_raises.
  destruct (execute_error tr q params) as [e |]; [| now left].
  right. exists e, [Execute q params]. auto.
Qed.

Lemma cut_short_for_each {A} (body full : A -> M unit) l :
  (forall x, cut_short (body x) (full x)) ->
  (forall x, adds_only (fun _ => true) (full x)) ->
  cut_short (for_each body l) (for_each full l).
Proof.
  intros Hbody Hadds. induction l as [| x l IH]; simpl.
  - apply cut_short_refl.
  - apply cut_short_bind; auto.
    intros _. now apply adds_only_for_each.
Qed.

Ltac adds_only_tac :=
  repeat (first
            [ now apply adds_only_nothing
            | now apply adds_only_execute
            | now apply adds_only_fetchone
            | apply adds_only_for_each; intros ?
            | apply adds_only_bind; [| intros ?]
            | match goal with
              | |- adds_only _ (match ?x with _ => _ end) => destruct x
              | |- adds_only _ (insert_songplay _ _ _ _) =>
                  unfold insert_songplay
              end ]).

Ltac cut_short_tac :=
  repeat (first
            [ apply cut_short_execute
            | apply cut_short_refl
            | apply cut_short_for_each; [intros ? | intros ?; adds_only_tac]
            | apply cut_short_bind; [| intros ? | intros ?; adds_only_tac]
            | match goal with
              | |- cut_short (match ?x with _ => _ end) _ => destruct x
              | |- cut_short (insert_songplay _ _ _ _) _ =>
                  unfold insert_songplay
              end ]).

Lemma process_song_file_cut_short execute_error read_song_json filepath :
  cut_short (process_song_file execute_error read_song_json filepath)
            (process_song_file never_raises read_song_json filepath).
Proof. unfold process_song_file. cut_short_tac. Qed.

Lemma process_log_file_cut_short
      fetchone_result execute_error read_log_json utcoffset filepath :
  cut_short (process_log_file fetchone_result execute_error read_log_json
                              utcoffset filepath)
            (process_log_file fetchone_result never_raises read_log_json
                              utcoffset filepath).
Proof. unfold process_log_file. cut_short_tac. Qed.

Lemma process_data_cut_short cwd fs filepath func full :
  (forall datafile, cut_short (func datafile) (full datafile)) ->
  (forall datafile, adds_only is_cursor_call (full datafile)) ->
  cut_short (process_data cwd fs filepath func)
            (process_data cwd fs filepath full).
Proof.
  intros Hfunc Hfull. unfold process_data.
  apply cut_short_for_each; intros x; unfold process_one.
  - apply cut_short_bind; [apply Hfunc | intros _; apply cut_short_refl |].
    intros _ tr. now exists [Commit].
  - apply adds_only_bind.
    + eapply adds_only_weaken; [| apply Hfull]. auto.
    + intros _ tr. now exists [Commit].
Qed.

(** X5: an error of the database only cuts the run of [process_log_file]
    short: with the same file and the same answers to the lookups, either the
    run is the one made when every statement is accepted, or it raises after
    an initial part of the calls of that run; no statement is added, changed
    or moved. *)
Theorem database_error_cuts_log_file_short :
  forall fetchone_result execute_error read_log_json utcoffset filepath tr,
    let run := process_log_file fetchone_result execute_error read_log_json
                                utcoffset filepath tr in
    let full := process_log_file fetchone_result never_raises read_log_json
                                 utcoffset filepath tr in
    run = full
    \/ exists e more, snd run = Raise e /\ fst full = fst run ++ more.
Proof.
  intros fr ee read off filepath tr.
  exact (process_log_file_cut_short fr ee read off filepath tr).
Qed.

(** X12: the same holds of the whole program: with the same files and the
    same answers to the lookups, a run of [main] in which the database
    raises is an initial part of the run in which it accepts every
    statement, commits included. *)
Theorem database_error_cuts_main_short :
  forall fetchone_result execute_error read_song_json read_log_json utcoffset
         cwd fs tr,
    let run := main fetchone_result execute_error read_song_json
                    read_log_json utcoffset cwd fs tr in
    let full := main fetchone_result never_raises read_song_json
                     read_log_json utcoffset cwd fs tr in
    run = full
    \/ exists e more, snd run = Raise e /\ fst full = fst run ++ more.
Proof.
  intros fr ee read_song read_log off cwd fs tr. cbv zeta. revert tr.
  change (cut_short (main fr ee read_song read_log off cwd fs)
                    (main fr never_raises read_song read_log off cwd fs)).
  assert (Hlog : adds_only (fun _ => true)
                   (process_data cwd fs ["data"; "log_data"]%string
                      (process_log_file fr never_raises read_log off))).
  { unfold process_data. apply adds_only_for_each. intros x.
    unfold process_one. apply adds_only_bind.
    - eapply adds_only_weaken; [| apply process_log_file_cursor_only]. auto.
    - intros _ tr. now exists [Commit]. }
  unfold main. apply cut_short_bind.
  - apply process_data_cut_short.
    + intros f. apply process_song_file_cut_short.
    + intros f. apply process_song_file_cursor_only.
  - intros _. apply cut_short_bind.
    + apply process_data_cut_short.
      * intros f. apply process_log_file_cut_short.
      * intros f. apply process_log_file_cursor_only.
    + intros _. apply cut_short_refl.
    + intros _ tr. now exists [Close].
  - intros _. apply adds_only_bind; [exact Hlog |].
    intros _ tr. now exists [Close].
Qed.

(** *** The connection at the end of main *)

Lemma cursor_call_is_not_close e :
  is_cursor_call e = true -> negb (is_close e) = true.
Proof. destruct e; auto; discriminate. Qed.

Lemma process_data_never_closes cwd fs filepath func :
  (forall datafile, adds_only is_cursor_call (func datafile)) ->
  adds_only (fun e => negb (is_close e)) (process_data cwd fs filepath func).
Proof.
  intros Hfunc. unfold process_data. apply adds_only_for_each. intros x.
  unfold process_one. apply adds_only_bind.
  - eapply adds_only_weaken; [apply cursor_call_is_not_close | apply Hfunc].
  - intros _ tr. now exists [Commit].
Qed.

(** X7: [main] closes the connection only at the end of a run that returns:
    when a file raises, the exception leaves [main] with the connection
    still open, and when it is a song file that raises, [main] stops there,
    with nothing done for the log files. *)
Theorem main_leaves_the_connection_open_on_error :
  forall fetchone_result execute_error read_song_json read_log_json utcoffset
         cwd fs tr e,
    snd (main fetchone_result execute_error read_song_json read_log_json
              utcoffset cwd fs tr) = Raise e ->
    (exists calls,
        fst (main fetchone_result execute_error read_song_json read_log_json
                  utcoffset cwd fs tr) = tr ++ calls
        /\ filter is_close calls = [])
    /\ (snd (process_data cwd fs ["data"; "song_data"]%string
               (process_song_file execute_error read_song_json) tr) <> Ok tt ->
        main fetchone_result execute_error read_song_json read_log_json
             utcoffset cwd fs tr
        = process_data cwd fs ["data"; "song_data"]%string
            (process_song_file execute_error read_song_json) tr).
Proof.
  intros fr ee read_song read_log off cwd fs tr e Hraise.
  assert (Hnone : forall calls,
             forallb (fun c => negb (is_close c)) calls = true ->
             filter is_close calls = []).
  { induction calls as [| c calls IH]; [auto |]. simpl. intros H.
    apply andb_prop in H. destruct H as [Hc Hrest].
    apply negb_true_iff in Hc. rewrite Hc. auto. }
  pose proof (process_data_never_closes cwd fs ["data"; "song_data"]%string
                _ (process_song_file_cursor_only ee read_song) tr)
    as [c1 [H1 N1]].
  unfold main in *. unfold bind at 1 in Hraise. unfold bind at 1.
  unfold bind at 2.
  destruct (process_data cwd fs ["data"; "song_data"]%string
              (process_song_file ee read_song) tr) as [t1 [[] | e1]];
    simpl in H1; subst t1.
  - pose proof (process_data_never_closes cwd fs ["data"; "log_data"]%string
                  _ (process_log_file_cursor_only fr ee read_log off)
                  (tr ++ c1)) as [c2 [H2 N2]].
    unfold bind at 1 in Hraise. unfold bind at 1.
    destruct (process_data cwd fs ["data"; "log_data"]%string
                (process_log_file fr ee read_log off) (tr ++ c1))
      as [t2 [[] | e2]]; simpl in H2; subst t2.
    + discriminate.
    + split; [| intros Hne; now contradiction Hne].
      exists (c1 ++ c2). simpl. rewrite app_assoc. split; [reflexivity |].
      apply Hnone. now rewrite forallb_app, N1, N2.
  - split; [| reflexivity]. exists c1. auto.
Qed.

Lemma main_leaves_the_connection_open_on_error_witness :
  (exists calls,
      fst (main Examples.finds_harmonia Examples.rejects_later_artists
             Examples.one_song Examples.three_lines Examples.utc
             Examples.home Examples.three_song_files [])
      = [] ++ calls
      /\ filter is_close calls = [])
  /\ (snd (process_data Examples.home Examples.three_song_files
             ["data"; "song_data"]%string
             (process_song_file Examples.rejects_later_artists
                                Examples.one_song) []) <> Ok tt ->
      main Examples.finds_harmonia Examples.rejects_later_artists
           Examples.one_song Examples.three_lines Examples.utc
           Examples.home Examples.three_song_files []
      = process_data Examples.home Examples.three_song_files
          ["data"; "song_data"]%string
          (process_song_file Examples.rejects_later_artists Examples.one_song)
          []).
Proof.
  apply (main_leaves_the_connection_open_on_error
           Examples.finds_harmonia Examples.rejects_later_artists
           Examples.one_song Examples.three_lines Examples.utc
           Examples.home Examples.three_song_files [] DatabaseError).
  reflexivity.
Defined.

Lemma uncommitted_blocks blocks :
  forall tr,
    uncommitted tr = [] ->
    uncommitted (tr ++ flat_map committed_block blocks) = [].
Proof.
  induction blocks as [| calls blocks IH]; intros tr Htr; simpl.
  - now rewrite app_nil_r.
  - rewrite app_assoc. apply IH. unfold committed_block.
    rewrite app_assoc. apply uncommitted_commit.
Qed.

Lemma blocks_never_close func tr files blocks :
  (forall datafile, adds_only is_cursor_call (func datafile)) ->
  files_run func tr files blocks ->
  filter is_close (flat_map committed_block blocks) = [].
Proof.
  intros Hfunc Hrun.
  induction Hrun as [tr | tr f files calls blocks Hf Hno Hrun IH];
    [reflexivity |].
  simpl. unfold committed_block at 1. rewrite !filter_app, IH.
  destruct (Hfunc f tr) as [c [Hc Hall]]. rewrite Hf in Hc. simpl in Hc.
  apply app_inv_head in Hc. subst c.
  assert (Hnone : filter is_close calls = []).
  { clear - Hall. induction calls as [| c calls IHc]; [reflexivity |].
    simpl in *. apply andb_prop in Hall. destruct Hall as [Hc Hrest].
    destruct c; try discriminate; simpl; auto. }
  now rewrite Hnone.
Qed.

(** X8: in a run of [main] that returns, started on a connection with
    nothing pending, one commit is issued per file found, the connection is
    closed once, as the last call, and every statement issued is committed
    by then. *)
Theorem main_commits_everything_before_closing :
  forall fetchone_result execute_error read_song_json read_log_json utcoffset
         cwd fs tr,
    snd (main fetchone_result execute_error read_song_json read_log_json
              utcoffset cwd fs tr) = Ok tt ->
    uncommitted tr = [] ->
    exists calls,
      fst (main fetchone_result execute_error read_song_json read_log_json
                utcoffset cwd fs tr) = tr ++ calls ++ [Close]
      /\ uncommitted (tr ++ calls) = []
      /\ filter is_close calls = []
      /\ List.length (filter is_commit calls)
         = (List.length (all_files cwd fs ["data"; "song_data"]%string)
            + List.length (all_files cwd fs ["data"; "log_data"]%string))%nat.
Proof.
  intros fr ee read_song read_log off cwd fs tr Hok Htr.
  unfold main in *. unfold bind at 1 in Hok. unfold bind at 1.
  destruct (process_data cwd fs ["data"; "song_data"]%string
              (process_song_file ee read_song) tr)
    as [t1 [[] | e1]] eqn:E1; [| discriminate].
  unfold bind at 1 in Hok. unfold bind at 1.
  destruct (process_data cwd fs ["data"; "log_data"]%string
              (process_log_file fr ee read_log off) t1)
    as [t2 [[] | e2]] eqn:E2; [| discriminate].
  unfold process_data in E1, E2.
  destruct (process_files_inv _ _ _ _
              (process_song_file_commit_free ee read_song) E1)
    as [song_blocks [Hsong ->]].
  destruct (process_files_inv _ _ _ _
              (process_log_file_commit_free fr ee read_log off) E2)
    as [log_blocks [Hlog ->]].
  exists (flat_map committed_block song_blocks
          ++ flat_map committed_block log_blocks).
  split; [unfold close; simpl; now rewrite <- !app_assoc |].
  split; [| split].
  - rewrite app_assoc. apply uncommitted_blocks.
    now apply uncommitted_blocks.
  - rewrite filter_app.
    rewrite (blocks_never_close _ _ _ _
               (process_song_file_cursor_only ee read_song) Hsong).
    rewrite (blocks_never_close _ _ _ _
               (process_log_file_cursor_only fr ee read_log off) Hlog).
    reflexivity.
  - rewrite filter_app, length_app.
    rewrite (files_run_no_commit _ _ _ _ Hsong).
    rewrite (files_run_no_commit _ _ _ _ Hlog). reflexivity.
Qed.

Lemma main_commits_everything_before_closing_witness :
  exists calls,
    fst (main Examples.finds_harmonia Examples.accepts_all Examples.one_song
           Examples.three_lines Examples.pacific Examples.home Examples.tree
           [])
    = [] ++ calls ++ [Close]
    /\ uncommitted ([] ++ calls) = []
    /\ filter is_close calls = []
    /\ List.length (filter is_commit calls)
       = (List.length (all_files Examples.home Examples.tree
                                 ["data"; "song_data"]%string)
          + List.length (all_files Examples.home Examples.tree
                                   ["data"; "log_data"]%string))%nat.
Proof.
  apply (main_commits_everything_before_closing
           Examples.finds_harmonia Examples.accepts_all Examples.one_song
           Examples.three_lines Examples.pacific Examples.home Examples.tree
           []); reflexivity.
Defined.

(** *** The files found are found once *)

Lemma distinct_NoDup names : distinct names = true -> NoDup names.
Proof.
  induction names as [| n rest IH]; intros H; constructor;
    simpl in H; apply andb_prop in H; destruct H as [Hn Hrest]; auto.
  intros Hin. apply negb_true_iff in Hn.
  assert (Hex : existsb (String.eqb n) rest = true)
    by (apply existsb_exists; exists n; split; [auto | apply String.eqb_refl]).
  congruence.
Qed.

Lemma listed_under_root root entries d e :
  listed root entries d e -> exists below, d = root ++ below.
Proof.
  induction 1 as [root entries e He | root entries n sub d e Hd Hl IH].
  - exists []. now rewrite app_nil_r.
  - destruct IH as [below ->]. exists (n :: below).
    now rewrite <- app_assoc.
Qed.

Lemma json_below_under e root p :
  In p (json_below root e) ->
  exists n sub below,
    e = Dir n sub /\ p = root ++ n :: below /\ below <> [].
Proof.
  intros Hin.
  destruct (json_below_listed _ _ _ Hin) as [n [sub [d [e' [-> [Hl [_ ->]]]]]]].
  destruct (listed_under_root _ _ _ _ Hl) as [below ->].
  exists n, sub, (below ++ [entry_name e']).
  split; [reflexivity |]. split.
  - now rewrite <- !app_assoc.
  - now destruct below.
Qed.

Lemma json_in_NoDup root entries :
  NoDup (map entry_name entries) -> NoDup (json_in root entries).
Proof.
  unfold json_in. induction entries as [| e entries IH]; intros H; simpl.
  - constructor.
  - inversion H as [| x l Hnot Hrest]; subst.
    destruct (glob_match (entry_name e)); [| auto].
    simpl. constructor; [| auto].
    intros Hin. apply in_map_iff in Hin. destruct Hin as [e' [Heq He']].
    apply app_inv_head in Heq. inversion Heq as [Hname].
    apply filter_In in He'. destruct He' as [He' _].
    apply Hnot. rewrite <- Hname. now apply in_map.
Qed.

Lemma json_under_NoDup root entries :
  NoDup (map entry_name entries) ->
  Forall (fun e => forall r, NoDup (json_below r e)) entries ->
  NoDup (json_under root entries).
Proof.
  intros Hnames Hsub. unfold json_under. apply NoDup_app.
  - now apply json_in_NoDup.
  - revert Hnames Hsub. induction entries as [| e entries IH];
      intros Hnames Hsub; simpl; [constructor |].
    inversion Hnames as [| x l Hnot Hrest]; subst.
    inversion Hsub as [| x l He Hes]; subst.
    apply NoDup_app; auto.
    intros p Hp Hp'.
    destruct (json_below_under _ _ _ Hp) as [n [sub [below [-> [-> _]]]]].
    apply in_flat_map in Hp'. destruct Hp' as [e' [He' Hp']].
    destruct (json_below_under _ _ _ Hp')
      as [n' [sub' [below' [-> [Heq _]]]]].
    apply app_inv_head in Heq. inversion Heq; subst n'.
    apply Hnot. simpl. change n with (entry_name (Dir n sub')).
    now apply in_map.
  - intros p Hp Hp'.
    apply json_in_listed in Hp. destruct Hp as [e [_ [_ ->]]].
    apply in_flat_map in Hp'. destruct Hp' as [e' [_ Hp']].
    destruct (json_below_under _ _ _ Hp') as [n [sub [below [_ [Heq Hne]]]]].
    apply app_inv_head in Heq. inversion Heq. now subst below.
Qed.

Lemma tree_ok_NoDup e :
  tree_ok e = true -> forall r, NoDup (json_below r e).
Proof.
  induction e as [n | n sub IH] using entry_induction; intros Hok r.
  - constructor.
  - cbn [tree_ok] in Hok. apply andb_prop in Hok. destruct Hok as [Hn Hs].
    change (json_below r (Dir n sub)) with (json_under (r ++ [n]) sub).
    apply json_under_NoDup; [now apply distinct_NoDup |].
    rewrite forallb_forall in Hs. rewrite Forall_forall in *.
    intros e He. apply IH; auto.
Qed.

Lemma listed_in_nothing root d e : ~ listed root [] d e.
Proof. intros H. inversion H; contradiction. Qed.

Lemma all_files_plain cwd fs filepath :
  has_magic filepath = false ->
  listing_ok (listing_at fs filepath) = true ->
  forallb plain_names (listing_at fs filepath) = true ->
  all_files cwd fs filepath
  = map (abspath cwd) (json_under filepath (listing_at fs filepath)).
Proof.
  intros Hroot Hok Hplain. unfold all_files.
  destruct (isdir fs filepath) eqn:E.
  - now rewrite walk_glob_plain.
  - now rewrite (isdir_false_listing _ _ E).
Qed.



(** *** The files found, and their order in the run *)



(** X14: a run of [main] that returns processes the song files found one
    after the other, each followed by its commit, then the log files in the
    same way, then closes the connection: no call for a log file comes
    before the commit of the last song file. *)
Theorem main_processes_song_files_before_log_files :
  forall fetchone_result execute_error read_song_json read_log_json utcoffset
         cwd fs tr,
    snd (main fetchone_result execute_error read_song_json read_log_json
              utcoffset cwd fs tr) = Ok tt ->
    exists song_blocks log_blocks,
      files_run (process_song_file execute_error read_song_json) tr
                (all_files cwd fs ["data"; "song_data"]%string) song_blocks
      /\ files_run (process_log_file fetchone_result execute_error
                                     read_log_json utcoffset)
                   (tr ++ flat_map committed_block song_blocks)
                   (all_files cwd fs ["data"; "log_data"]%string) log_blocks
      /\ fst (main fetchone_result execute_error read_song_json
                   read_log_json utcoffset cwd fs tr)
         = tr ++ flat_map committed_block song_blocks
              ++ flat_map committed_block log_blocks ++ [Close].
Proof.
  intros fr ee read_song read_log off cwd fs tr Hok.
  unfold main in *. unfold bind at 1 in Hok. unfold bind at 1.
  destruct (process_data cwd fs ["data"; "song_data"]%string
              (process_song_file ee read_song) tr)
    as [t1 [[] | e1]] eqn:E1; [| discriminate].
  unfold bind at 1 in Hok. unfold bind at 1.
  destruct (process_data cwd fs ["data"; "log_data"]%string
              (process_log_file fr ee read_log off) t1)
    as [t2 [[] | e2]] eqn:E2; [| discriminate].
  unfold process_data in E1, E2.
  destruct (process_files_inv _ _ _ _
              (process_song_file_commit_free ee read_song) E1)
    as [song_blocks [Hsong ->]].
  destruct (process_files_inv _ _ _ _
              (process_log_file_commit_free fr ee read_log off) E2)
    as [log_blocks [Hlog ->]].
  exists song_blocks, log_blocks. split; [assumption |].
  split; [assumption |].
  unfold close. simpl. now rewrite <- !app_assoc.
Qed.

Lemma main_processes_song_files_before_log_files_witness :
  exists song_blocks log_blocks,
    files_run (process_song_file Examples.accepts_all Examples.one_song) []
              (all_files Examples.home Examples.tree
                         ["data"; "song_data"]%string) song_blocks
    /\ files_run (process_log_file Examples.finds_harmonia
                    Examples.accepts_all Examples.three_lines
                    Examples.pacific)
                 ([] ++ flat_map committed_block song_blocks)
                 (all_files Examples.home Examples.tree
                            ["data"; "log_data"]%string) log_blocks
    /\ fst (main Examples.finds_harmonia Examples.accepts_all
              Examples.one_song Examples.three_lines Examples.pacific
              Examples.home Examples.tree [])
       = [] ++ flat_map committed_block song_blocks
            ++ flat_map committed_block log_blocks ++ [Close].
Proof.
  apply (main_processes_song_files_before_log_files
           Examples.finds_harmonia Examples.accepts_all Examples.one_song
           Examples.three_lines Examples.pacific Examples.home Examples.tree
           []).
  reflexivity.
Defined.

(** *** What the stored times say *)

(** X11: the row of the time table tells the timestamp apart: two NextSong
    rows with different [ts] never give the same time parameters. *)
Theorem time_row_determines_timestamp :
  forall t1 t2, t1 <> t2 -> time_data t1 <> time_data t2.
Proof.
  intros t1 t2 Hne Heq. apply Hne. unfold time_data in Heq.
  assert (Htime : dt_time t1 = dt_time t2) by congruence.
  assert (Hday : dt_day t1 = dt_day t2) by congruence.
  assert (Hmonth : dt_month t1 = dt_month t2) by congruence.
  assert (Hyear : dt_year t1 = dt_year t2) by congruence.
  destruct (timestamp_decomposition t1) as [Hrow1 _].
  destruct (timestamp_decomposition t2) as [Hrow2 _].
  rewrite Htime, Hday, Hmonth, Hyear in Hrow1. congruence.
Qed.

Lemma time_row_determines_timestamp_witness :
  time_data (ts Examples.play_1) <> time_data (ts Examples.play_2).
Proof.
  apply (time_row_determines_timestamp
           (ts Examples.play_1) (ts Examples.play_2)).
  discriminate.
Defined.

Lemma string_app_inj (a a' b b' : string) :
  String.length a = String.length a' ->
  (a ++ b)%string = (a' ++ b')%string -> a = a' /\ b = b'.
Proof.
  revert a'. induction a as [| c a IH]; intros [| c' a'] Hlen H;
    try discriminate; simpl in *.
  - auto.
  - inversion H; subst. inversion Hlen as [Hl].
    destruct (IH a' Hl H2) as [-> ->]. auto.
Qed.

Lemma digit_inj d d' :
  0 <= d < 10 -> 0 <= d' < 10 -> digit d = digit d' -> d = d'.
Proof.
  intros Hd Hd' H. unfold digit in H.
  apply (f_equal nat_of_ascii) in H.
  rewrite !nat_ascii_embedding in H by lia. lia.
Qed.

Lemma zero_padded_inj width :
  forall a b,
    0 <= a < 10 ^ Z.of_nat width -> 0 <= b < 10 ^ Z.of_nat width ->
    zero_padded width a = zero_padded width b -> a = b.
Proof.
  induction width as [| w IH]; intros a b Ha Hb H.
  - simpl in Ha, Hb. lia.
  - rewrite Nat2Z.inj_succ, Z.pow_succ_r in Ha, Hb by lia.
    cbn [zero_padded] in H.
    apply string_app_inj in H; [| now rewrite !zero_padded_length].
    destruct H as [Hhigh Hlow]. inversion Hlow as [Hdigit].
    apply digit_inj in Hdigit; try (apply Z.mod_pos_bound; lia).
    apply IH in Hhigh;
      try (split; [apply Z.div_pos; lia | apply Z.div_lt_upper_bound; lia]).
    rewrite (Z.div_mod a 10), (Z.div_mod b 10) by lia. congruence.
Qed.

Lemma strftime_HMSf_inj t t' :
  0 <= t_hour t < 100 -> 0 <= t_minute t < 100 -> 0 <= t_second t < 100 ->
  0 <= t_hour t' < 100 -> 0 <= t_minute t' < 100 -> 0 <= t_second t' < 100 ->
  strftime_HMSf t = strftime_HMSf t' ->
  t_hour t = t_hour t' /\ t_minute t = t_minute t'
  /\ t_second t = t_second t'.
Proof.
  intros Hh Hm Hs Hh' Hm' Hs' H. unfold strftime_HMSf in H.
  apply string_app_inj in H; [| now rewrite !zero_padded_length].
  destruct H as [H1 H]. apply (string_app_inj ":" ":") in H; [| reflexivity].
  destruct H as [_ H].
  apply string_app_inj in H; [| now rewrite !zero_padded_length].
  destruct H as [H2 H]. apply (string_app_inj ":" ":") in H; [| reflexivity].
  destruct H as [_ H].
  apply string_app_inj in H; [| now rewrite !zero_padded_length].
  destruct H as [H3 _].
  repeat split; apply (zero_padded_inj 2); auto.
Qed.

(** X10: the start time of a songplay depends on the time zone of the
    machine that runs the program: for the same [ts], two fixed offsets from
    UTC give the same start time only when they differ by whole days. *)
Theorem start_time_depends_on_the_time_zone :
  forall offset offset' ts,
    start_time_of (fun _ => offset) ts = start_time_of (fun _ => offset') ts
    <-> (offset - offset') mod 86400 = 0.
Proof.
  intros a b t. unfold start_time_of.
  destruct (timestamp_parts _) as [sec us]. unfold local_time_of_day.
  set (s := (sec + a) mod 86400). set (s' := (sec + b) mod 86400).
  assert (Hs : 0 <= s < 86400) by (apply Z.mod_pos_bound; reflexivity).
  assert (Hs' : 0 <= s' < 86400) by (apply Z.mod_pos_bound; reflexivity).
  assert (Hiff : s = s' <-> (a - b) mod 86400 = 0).
  { subst s s'. clear. split; intros H;
      Z.to_euclidean_division_equations; lia. }
  rewrite <- Hiff. split.
  - intros H. apply strftime_HMSf_inj in H;
      cbn [t_hour t_minute t_second] in *;
      Z.to_euclidean_division_equations; lia.
  - intros ->. reflexivity.
Qed.

Lemma start_time_depends_on_the_time_zone_witness :
  start_time_of (fun _ => -28800) (ts Examples.play_1)
  = start_time_of (fun _ => 57600) (ts Examples.play_1).
Proof.
  apply (proj2 (start_time_depends_on_the_time_zone
                  (-28800) 57600 (ts Examples.play_1))).
  reflexivity.
Defined.
